(** * Process discovery and core dumps of [env.cpp]

    A shallow embedding of the process directory, the sibling locator, the
    dump-file allocator and the dump capturer of [src/env.cpp], with the
    Win32 calls they make taken as an interface over an abstract operating
    system state.  Every function of the source is a computation that threads
    the operating system state and emits, in order, the calls it makes and the
    text it writes to the diagnostic streams. *)

From Stdlib Require Import ZArith List String Ascii DecimalString Bool Lia.
Import ListNotations.
Open Scope Z_scope.

(** ** Machine data *)

(** [DWORD] is a 32-bit and [size_t] a 64-bit unsigned integer; arithmetic on
    them wraps around. *)
Definition DWORD := Z.
Definition size_t := Z.
Definition to_DWORD (z : Z) : DWORD := z mod 2 ^ 32.
Definition to_size_t (z : Z) : size_t := z mod 2 ^ 64.

(** A [HANDLE] is a pointer-sized value. *)
Definition HANDLE := Z.
Definition NULL : HANDLE := 0.
Definition INVALID_HANDLE_VALUE : HANDLE := 2 ^ 64 - 1.

Definition MAX_PATH : DWORD := 260.
Definition ERROR_ACCESS_DENIED : DWORD := 5.
Definition ERROR_FILE_EXISTS : DWORD := 80.
Definition PROCESS_QUERY_INFORMATION : DWORD := 0x0400.
Definition PROCESS_VM_READ : DWORD := 0x0010.

(** The members of [_MINIDUMP_TYPE] the capturer uses. *)
Definition MiniDumpNormal : Z := 0x0.
Definition MiniDumpWithDataSegs : Z := 0x1.
Definition MiniDumpWithFullMemory : Z := 0x2.
Definition MiniDumpWithHandleData : Z := 0x4.
Definition MiniDumpWithUnloadedModules : Z := 0x20.
Definition MiniDumpWithProcessThreadData : Z := 0x100.

(** ** Wide strings *)

(** A [std::wstring] is a sequence of UTF-16 code units. *)
Definition wchar_t := N.
Definition wstring := list wchar_t.

(** [L "..."] is the wide literal with the characters of an ASCII literal. *)
Definition L (s : string) : wstring := map N_of_ascii (list_ascii_of_string s).

(** The literal ["\n"]. *)
Definition endl : wstring := [10%N].

Definition wchar_eqb (a b : wchar_t) : bool := N.eqb a b.

(** [operator==] of [std::wstring]: same length and same code units. *)
Fixpoint wstring_eqb (a b : wstring) : bool :=
  match a, b with
  | [], [] => true
  | x :: a', y :: b' => wchar_eqb x y && wstring_eqb a' b'
  | _, _ => false
  end.

Definition empty (s : wstring) : bool :=
  match s with [] => true | _ => false end.

(** [std::to_wstring] and the stream insertion of an integer: its decimal
    digits, with a minus sign when negative. *)
Definition to_wstring (z : Z) : wstring := L (NilZero.string_of_int (Z.to_int z)).

(** An insertion under [std::setw (w)] with fill character [fill]: the text
    is padded on the left up to [w] characters and never cut. *)
Definition setw (w : nat) (fill : wchar_t) (s : wstring) : wstring :=
  repeat fill (w - List.length s) ++ s.

(** ** Records of the source *)

Record Process := mkProcess { filename : wstring; pid : DWORD }.

(** The fields of [struct tm] the allocator reads. *)
Record tm := mkTm {
  tm_year : Z; tm_mon : Z; tm_mday : Z;
  tm_hour : Z; tm_min : Z; tm_sec : Z
}.

(** Modelled from the spec: the enumeration [CoreDumpTypes] is declared in
    [env.h], which is not among the sources; the spec's DumpRequestType is
    one of Mini, Data and Full, and no other state exists. *)
Inductive CoreDumpTypes := Mini | Data | Full.

(** Modelled from the spec: the type [HandlePtr] is declared in [env.h],
    which is not among the sources; it is the spec's exclusively owned
    handle, released once on scope exit.  The code uses it as a
    [std::unique_ptr] over [HANDLE]: [{}] holds the null handle, [get ()]
    is the raw handle and [!h] tests it against null. *)
Definition HandlePtr := HANDLE.
Definition HandlePtr_empty : HandlePtr := NULL.
Definition HandlePtr_get (h : HandlePtr) : HANDLE := h.
Definition HandlePtr_bool (h : HandlePtr) : bool := negb (h =? NULL).

(** ** Observable events *)

Inductive ApiCall :=
| CallGetModuleFileNameW (nSize : DWORD)
| CallGetModuleBaseNameW (process : HANDLE) (nSize : DWORD)
| CallGetLastError
| CallEnumProcesses (cb : DWORD)
| CallOpenProcess (access : DWORD) (processId : DWORD)
| CallCloseHandle (h : HANDLE)
| CallGetCurrentProcessId
| CallGetCurrentProcess
| CallGetProcessId (process : HANDLE)
| CallGetTempPathW (nBufferLength : DWORD)
| CallTime
| CallCreateFileW (path : wstring)
| CallMiniDumpWriteDump (process : HANDLE) (processId : DWORD)
                        (file : HANDLE) (flags : Z).

(** What a run leaves behind, oldest first: the calls made and one entry per
    output statement on [std::wcerr], [std::wclog] and [std::cerr].  The
    narrow [std::cerr] is only ever given a wide literal, of which it prints
    the address, not the text. *)
Inductive Event :=
| Call (c : ApiCall)
| Wcerr (text : wstring)
| Wclog (text : wstring)
| CerrAddressOf (literal : wstring).

Definition is_error_output (e : Event) : bool :=
  match e with
  | Wcerr _ | CerrAddressOf _ => true
  | _ => false
  end.

Definition error_output (t : list Event) : list Event := filter is_error_output t.

(** ** The platform interface *)

Section Platform.

(** The state of the operating system, left abstract. *)
Context {OS : Type}.

(** What [env.cpp] calls and does not define.  A call that fills a buffer
    answers with the value it returns and the elements it wants to store. *)
Record Platform := mkPlatform {
  GetModuleFileNameW : DWORD -> OS -> (DWORD * wstring) * OS;
  GetModuleBaseNameW : HANDLE -> DWORD -> OS -> (DWORD * wstring) * OS;
  GetLastError : OS -> DWORD;
  (** success flag and the identifiers of the processes the system knows *)
  EnumProcesses : OS -> (bool * list DWORD) * OS;
  OpenProcess : DWORD -> DWORD -> OS -> HANDLE * OS;
  CloseHandle : HANDLE -> OS -> OS;
  GetCurrentProcessId : OS -> DWORD;
  GetCurrentProcess : HANDLE;
  GetProcessId : HANDLE -> OS -> DWORD;
  GetTempPathW : DWORD -> OS -> (DWORD * wstring) * OS;
  time : OS -> Z * OS;
  gmtime : Z -> tm;
  (** creation in create-new mode, for writing *)
  CreateFileW : wstring -> OS -> HANDLE * OS;
  MiniDumpWriteDump : HANDLE -> DWORD -> HANDLE -> Z -> OS -> bool * OS;
  (** [MOBase::formatSystemMessage] *)
  formatSystemMessage : DWORD -> wstring;
  (** [std::filesystem::path::filename] *)
  path_filename : wstring -> wstring
}.

(** ** Computations *)

(** A computation maps the state of the system to a value, the next state
    and the events emitted. *)
Definition M (A : Type) : Type := OS -> A * OS * list Event.

Definition val {A} (r : A * OS * list Event) : A := fst (fst r).
Definition st {A} (r : A * OS * list Event) : OS := snd (fst r).
Definition tr {A} (r : A * OS * list Event) : list Event := snd r.

Definition ret {A} (a : A) : M A := fun s => (a, s, []).

Definition bind {A B} (m : M A) (f : A -> M B) : M B :=
  fun s =>
    let r1 := m s in
    let r2 := f (val r1) (st r1) in
    (val r2, st r2, tr r1 ++ tr r2).

Definition emit (e : Event) : M unit := fun s => (tt, s, [e]).

(** A call that changes the state and answers. *)
Definition call {A} (c : ApiCall) (f : OS -> A * OS) : M A :=
  fun s => (fst (f s), snd (f s), [Call c]).

(** A call that only reads the state. *)
Definition query {A} (c : ApiCall) (f : OS -> A) : M A :=
  fun s => (f s, s, [Call c]).

End Platform.

Arguments Platform : clear implicits.
Arguments M : clear implicits.

Declare Scope env_scope.
Delimit Scope env_scope with env.
Notation "x <- c1 ;; c2" := (bind c1 (fun x => c2))
  (at level 61, c1 at next level, right associativity) : env_scope.
Notation "c1 ;; c2" := (bind c1 (fun _ => c2))
  (at level 61, right associativity) : env_scope.
Open Scope env_scope.

(** ** The functions of [env.cpp] *)

(** An array of [cap] zeros after a call stored [data] from its start, up to
    the [limit] elements it was told the array holds. *)
Definition stored {A} (zero : A) (cap limit : nat) (data : list A) : list A :=
  firstn limit data ++ repeat zero (cap - List.length (firstn limit data)).

Section Env.

Context {OS : Type}.
Variable api : Platform OS.

Definition last_error : M OS DWORD := query CallGetLastError (GetLastError api).

(** Modelled from the spec: the deleter of [HandlePtr] is declared in
    [env.h], which is not among the sources; a handle that was acquired is
    released once when its owner goes out of scope. *)
Definition HandlePtr_destroy (h : HandlePtr) : M OS unit :=
  if h =? NULL then ret tt
  else if h =? INVALID_HANDLE_VALUE then ret tt
  else call (CallCloseHandle h) (fun s => (tt, CloseHandle api h s)).

(** *** [processFilename] *)

Definition MaxTries : nat := 10.

(** The [for] loop of [processFilename], with [tries] iterations left:
    [Some] is a [return] from inside the loop, [None] leaving it by [break]
    or at its end. *)
Fixpoint processFilename_loop (process : HANDLE) (tries : nat)
    (bufferSize : DWORD) : M OS (option wstring) :=
  match tries with
  | O => ret None
  | S tries' =>
      r <- (if process =? INVALID_HANDLE_VALUE
            then call (CallGetModuleFileNameW bufferSize)
                      (GetModuleFileNameW api bufferSize)
            else call (CallGetModuleBaseNameW process bufferSize)
                      (GetModuleBaseNameW api process bufferSize)) ;;
      let writtenSize := to_DWORD (fst r) in
      let buffer := stored 0%N (Z.to_nat (to_DWORD (bufferSize + 1)))
                           (Z.to_nat bufferSize) (snd r) in
      if writtenSize =? 0 then
        e <- last_error ;;
        emit (Wcerr (formatSystemMessage api e ++ endl)) ;;
        ret None
      else if writtenSize >=? bufferSize then
        processFilename_loop process tries' (to_DWORD (bufferSize * 2))
      else
        ret (Some (path_filename api (firstn (Z.to_nat writtenSize) buffer)))
  end.

Definition processFilename (process : HANDLE) : M OS wstring :=
  r <- processFilename_loop process MaxTries MAX_PATH ;;
  match r with
  | Some name => ret name
  | None =>
      let what :=
        if process =? INVALID_HANDLE_VALUE then L "the current process"
        else L "pid " ++ to_wstring process in
      emit (Wcerr (L "failed to get filename for " ++ what ++ endl)) ;;
      ret []
  end.

(** *** [runningProcessesIds] *)

(** [EnumProcesses (ids, bytesGiven, &bytesWritten)] on a zero-filled array
    of [size] entries: the system stores the identifiers it knows as far as
    [bytesGiven] allows and reports the bytes stored. *)
Definition EnumProcesses_into (size : size_t) (bytesGiven : DWORD)
  : M OS (bool * DWORD * list DWORD) :=
  r <- call (CallEnumProcesses bytesGiven) (EnumProcesses api) ;;
  let limit := Z.to_nat (bytesGiven / 4) in
  let ids := stored 0 (Z.to_nat size) limit (snd r) in
  let bytesWritten :=
    if fst r then 4 * Z.of_nat (List.length (firstn limit (snd r))) else 0 in
  ret (fst r, bytesWritten, ids).

Fixpoint runningProcessesIds_loop (tries : nat) (size : size_t)
  : M OS (option (list DWORD)) :=
  match tries with
  | O => ret None
  | S tries' =>
      let bytesGiven := to_DWORD (to_size_t (size * 4)) in
      r <- EnumProcesses_into size bytesGiven ;;
      let '(ok, bytesWritten, ids) := r in
      if negb ok then
        e <- last_error ;;
        emit (Wcerr (L "failed to enumerate processes, "
                       ++ formatSystemMessage api e ++ endl)) ;;
        ret (Some [])
      else if bytesWritten =? bytesGiven then
        runningProcessesIds_loop tries' (to_size_t (size * 2))
      else
        let count := bytesWritten / 4 in
        ret (Some (firstn (Z.to_nat count) ids))
  end.

Definition runningProcessesIds : M OS (list DWORD) :=
  r <- runningProcessesIds_loop MaxTries 300 ;;
  match r with
  | Some ids => ret ids
  | None =>
      emit (CerrAddressOf (L "too many processes to enumerate")) ;;
      ret []
  end.

(** *** [runningProcesses] *)

Definition open_access : DWORD :=
  Z.lor PROCESS_QUERY_INFORMATION PROCESS_VM_READ.

(** One iteration of the loop over the identifiers: the records so far in,
    the records after it out. *)
Definition runningProcesses_body (pid : DWORD) (v : list Process)
  : M OS (list Process) :=
  if pid =? 0 then ret v
  else
    h <- call (CallOpenProcess open_access pid) (OpenProcess api open_access pid) ;;
    if negb (HandlePtr_bool h) then
      e <- last_error ;;
      (if negb (e =? ERROR_ACCESS_DENIED)
       then emit (Wcerr (L "failed to open process " ++ to_wstring pid ++ L ", "
                           ++ formatSystemMessage api e ++ endl))
       else ret tt) ;;
      HandlePtr_destroy h ;;
      ret v
    else
      filename <- processFilename (HandlePtr_get h) ;;
      let v' := if negb (empty filename) then v ++ [mkProcess filename pid] else v in
      HandlePtr_destroy h ;;
      ret v'.

Fixpoint runningProcesses_loop (pids : list DWORD) (v : list Process)
  : M OS (list Process) :=
  match pids with
  | [] => ret v
  | pid :: rest =>
      v' <- runningProcesses_body pid v ;;
      runningProcesses_loop rest v'
  end.

Definition runningProcesses : M OS (list Process) :=
  pids <- runningProcessesIds ;;
  runningProcesses_loop pids [].

(** *** [findOtherPid] *)

Definition defaultName : wstring := L "ModOrganizer.exe".

(** The loop over the records: [Some] is the [return] inside it. *)
Fixpoint findOtherPid_scan (name : wstring) (thisPid : DWORD)
    (processes : list Process) : option DWORD :=
  match processes with
  | [] => None
  | p :: rest =>
      if wstring_eqb (filename p) name then
        if negb (pid p =? thisPid) then Some (pid p)
        else findOtherPid_scan name thisPid rest
      else findOtherPid_scan name thisPid rest
  end.

Definition findOtherPid : M OS DWORD :=
  emit (Wclog (L "looking for the other process..." ++ endl)) ;;
  thisPid <- query CallGetCurrentProcessId (GetCurrentProcessId api) ;;
  emit (Wclog (L "this process id is " ++ to_wstring thisPid ++ endl)) ;;
  own <- processFilename INVALID_HANDLE_VALUE ;;
  name <- (if empty own then
             emit (Wcerr (L "can't get current process filename, defaulting to "
                            ++ defaultName ++ endl)) ;;
             ret defaultName
           else
             emit (Wclog (L "this process filename is " ++ own ++ endl)) ;;
             ret own) ;;
  processes <- runningProcesses ;;
  emit (Wclog (L "there are " ++ to_wstring (Z.of_nat (List.length processes))
                 ++ L " processes running" ++ endl)) ;;
  match findOtherPid_scan name thisPid processes with
  | Some other => ret other
  | None =>
      emit (Wclog (L "no process with this filename" ++ endl
                     ++ L "MO may not be running, or it may be running as administrator" ++ endl
                     ++ L "you can try running this again as administrator" ++ endl)) ;;
      ret 0
  end.


(** *** [tempDir] *)

Definition tempDir : M OS wstring :=
  let bufferSize := to_DWORD (MAX_PATH + 1) in
  r <- call (CallGetTempPathW bufferSize) (GetTempPathW api bufferSize) ;;
  let written := to_DWORD (fst r) in
  let buffer := stored 0%N (Z.to_nat (bufferSize + 1)) (Z.to_nat bufferSize) (snd r) in
  if written =? 0 then
    e <- last_error ;;
    emit (Wcerr (L "failed to get temp path, " ++ formatSystemMessage api e ++ endl)) ;;
    ret []
  else
    ret (firstn (Z.to_nat written) buffer).

(** *** [tempFile] *)

Definition MaxNames : nat := 100.

Definition space : wchar_t := 32%N.
Definition zero_digit : wchar_t := 48%N.

(** What the [std::wostringstream] of [tempFile] holds: the first field is
    set to width 4 under the initial fill character, a space; the others to
    width 2 under ['0']. *)
Definition dump_prefix (t : tm) : wstring :=
  L "ModOrganizer-"
    ++ setw 4 space (to_wstring (1900 + tm_year t))
    ++ setw 2 zero_digit (to_wstring (tm_mon t + 1))
    ++ setw 2 zero_digit (to_wstring (tm_mday t)) ++ L "T"
    ++ setw 2 zero_digit (to_wstring (tm_hour t))
    ++ setw 2 zero_digit (to_wstring (tm_min t))
    ++ setw 2 zero_digit (to_wstring (tm_sec t)).

Definition dump_ext : wstring := L ".dmp".

(** The [for] loop of [tempFile] with [n] iterations left and counter [i]:
    [Some] is a [return] from inside the loop. *)
Fixpoint tempFile_loop (dir prefix : wstring) (n : nat) (i : Z) (path : wstring)
  : M OS (option HandlePtr) :=
  match n with
  | O => ret None
  | S n' =>
      emit (Wclog (L "trying file '" ++ path ++ L "'" ++ endl)) ;;
      h <- call (CallCreateFileW path) (CreateFileW api path) ;;
      if negb (HandlePtr_get h =? INVALID_HANDLE_VALUE) then
        ret (Some h)
      else
        e <- last_error ;;
        if negb (e =? ERROR_FILE_EXISTS) then
          emit (Wcerr (L "failed to create dump file, "
                         ++ formatSystemMessage api e ++ endl)) ;;
          ret (Some HandlePtr_empty)
        else
          tempFile_loop dir prefix n' (i + 1)
            (dir ++ L "\" ++ prefix ++ L "-" ++ to_wstring (i + 1) ++ dump_ext)
  end.

Definition tempFile (dir : wstring) : M OS HandlePtr :=
  now <- call CallTime (time api) ;;
  let t := gmtime api now in
  let prefix := dump_prefix t in
  let path := dir ++ L "\" ++ prefix ++ dump_ext in
  r <- tempFile_loop dir prefix MaxNames 0 path ;;
  match r with
  | Some h => ret h
  | None =>
      emit (Wcerr (L "can't create dump file, ran out of filenames" ++ endl)) ;;
      ret HandlePtr_empty
  end.

(** *** [dumpFile] *)

Definition dumpFile : M OS HandlePtr :=
  h <- tempFile (L ".") ;;
  if negb (HandlePtr_get h =? INVALID_HANDLE_VALUE) then ret h
  else
    emit (Wclog (L "cannot write dump file in current directory" ++ endl)) ;;
    dir <- tempDir ;;
    if negb (empty dir) then
      h' <- tempFile dir ;;
      HandlePtr_destroy h ;;
      if negb (HandlePtr_get h' =? INVALID_HANDLE_VALUE) then ret h'
      else HandlePtr_destroy h' ;; ret HandlePtr_empty
    else
      HandlePtr_destroy h ;; ret HandlePtr_empty.

(** *** [createMiniDump] *)

Definition baseline_flags : Z :=
  Z.lor (Z.lor (Z.lor MiniDumpNormal MiniDumpWithHandleData)
               MiniDumpWithUnloadedModules)
        MiniDumpWithProcessThreadData.

(** The value of [flags] at the call of [MiniDumpWriteDump]. *)
Definition dump_flags (type : CoreDumpTypes) : Z :=
  match type with
  | Data => Z.lor baseline_flags MiniDumpWithDataSegs
  | Full => Z.lor baseline_flags MiniDumpWithFullMemory
  | Mini => baseline_flags
  end.

Definition createMiniDump (process : HANDLE) (type : CoreDumpTypes) : M OS bool :=
  pid <- query (CallGetProcessId process) (GetProcessId api process) ;;
  file <- dumpFile ;;
  if negb (HandlePtr_bool file) then
    emit (Wcerr (L "nowhere to write the dump file" ++ endl)) ;;
    HandlePtr_destroy file ;;
    ret false
  else
    emit (Wclog (match type with
                 | Data => L "writing minidump with data" ++ endl
                 | Full => L "writing full minidump" ++ endl
                 | Mini => L "writing mini minidump" ++ endl
                 end)) ;;
    written <- call (CallMiniDumpWriteDump process pid (HandlePtr_get file) (dump_flags type))
                    (MiniDumpWriteDump api process pid (HandlePtr_get file) (dump_flags type)) ;;
    if negb written then
      e <- last_error ;;
      emit (Wcerr (L "failed to write mini dump, " ++ formatSystemMessage api e ++ endl)) ;;
      HandlePtr_destroy file ;;
      ret false
    else
      emit (Wclog (L "minidump written correctly" ++ endl)) ;;
      HandlePtr_destroy file ;;
      ret true.

(** *** [coredump] and [coredumpOther] *)

Definition coredump (type : CoreDumpTypes) : M OS bool :=
  emit (Wclog (L "creating minidump for the current process" ++ endl)) ;;
  process <- query CallGetCurrentProcess (fun _ => GetCurrentProcess api) ;;
  createMiniDump process type.

Definition coredumpOther (type : CoreDumpTypes) : M OS bool :=
  emit (Wclog (L "creating minidump for an running process" ++ endl)) ;;
  pid <- findOtherPid ;;
  if pid =? 0 then
    emit (Wcerr (L "no other process found" ++ endl)) ;;
    ret false
  else
    emit (Wclog (L "found other process with pid " ++ to_wstring pid ++ endl)) ;;
    handle <- call (CallOpenProcess open_access pid) (OpenProcess api open_access pid) ;;
    if negb (HandlePtr_bool handle) then
      e <- last_error ;;
      emit (Wcerr (L "failed to open process " ++ to_wstring pid ++ L ", "
                     ++ formatSystemMessage api e ++ endl)) ;;
      HandlePtr_destroy handle ;;
      ret false
    else
      r <- createMiniDump (HandlePtr_get handle) type ;;
      HandlePtr_destroy handle ;;
      ret r.

End Env.

(** ** A simulated system

    A small operating system to run the functions on: a process table, a
    file system that is a list of existing files with read-only directories,
    and a clock. *)

Module Sim.

Record Proc := mkProc {
  proc_pid : DWORD;
  proc_name : wstring;
  (** the error of [OpenProcess] on it, [0] when it can be opened *)
  proc_open_error : DWORD
}.

Record State := mkState {
  self_pid : DWORD;
  (** full path of the running image, empty when it cannot be told *)
  self_path : wstring;
  table : list Proc;
  (** the error of [EnumProcesses], [0] when it works *)
  enum_error : DWORD;
  files : list wstring;
  read_only : list wstring;
  temp_path : wstring;
  clock : Z;
  error : DWORD
}.

Definition set_error (e : DWORD) (s : State) : State :=
  mkState (self_pid s) (self_path s) (table s) (enum_error s) (files s)
          (read_only s) (temp_path s) (clock s) e.

Definition add_file (f : wstring) (s : State) : State :=
  mkState (self_pid s) (self_path s) (table s) (enum_error s) (f :: files s)
          (read_only s) (temp_path s) (clock s) (error s).

Fixpoint is_prefix (p s : wstring) : bool :=
  match p, s with
  | [], _ => true
  | x :: p', y :: s' => wchar_eqb x y && is_prefix p' s'
  | _, _ => false
  end.

(** A handle on a process is its identifier shifted; a handle on a file is
    odd. *)
Definition process_handle (id : DWORD) : HANDLE := 4 * (id + 1).
Definition handle_process (h : HANDLE) : DWORD := h / 4 - 1.
Definition file_handle (count : nat) : HANDLE := 4 * Z.of_nat count + 1.

Definition find_proc (id : DWORD) (s : State) : option Proc :=
  find (fun p => proc_pid p =? id) (table s).

(** A name query: the length when the text fits with its terminator, the size
    given when it is cut. *)
Definition copy_out (text : wstring) (nSize : DWORD) (s : State)
  : (DWORD * wstring) * State :=
  match text with
  | [] => ((0, []), set_error 6 s)
  | _ =>
      if Z.of_nat (List.length text) <? nSize then ((Z.of_nat (List.length text), text), s)
      else ((nSize, firstn (Z.to_nat (nSize - 1)) text), set_error 122 s)
  end.

Definition sim_GetModuleBaseNameW (h : HANDLE) (nSize : DWORD) (s : State) :=
  match find_proc (handle_process h) s with
  | Some p => copy_out (proc_name p) nSize s
  | None => ((0, []), set_error 6 s)
  end.

Definition sim_EnumProcesses (s : State) : (bool * list DWORD) * State :=
  if enum_error s =? 0 then ((true, map proc_pid (table s)), s)
  else ((false, []), set_error (enum_error s) s).

Definition sim_OpenProcess (access id : DWORD) (s : State) : HANDLE * State :=
  match find_proc id s with
  | Some p =>
      if proc_open_error p =? 0 then (process_handle id, s)
      else (NULL, set_error (proc_open_error p) s)
  | None => (NULL, set_error 87 s)
  end.

Definition sim_CreateFileW (path : wstring) (s : State) : HANDLE * State :=
  if existsb (wstring_eqb path) (files s) then
    (INVALID_HANDLE_VALUE, set_error ERROR_FILE_EXISTS s)
  else if existsb (fun d => is_prefix d path) (read_only s) then
    (INVALID_HANDLE_VALUE, set_error ERROR_ACCESS_DENIED s)
  else (file_handle (List.length (files s)), add_file path s).

(** Seconds since the epoch to the calendar, in UTC. *)
Definition sim_gmtime (now : Z) : tm :=
  let days := now / 86400 in
  let secs := now mod 86400 in
  let z := days + 719468 in
  let era := z / 146097 in
  let doe := z - era * 146097 in
  let yoe := (doe - doe / 1460 + doe / 36524 - doe / 146096) / 365 in
  let doy := doe - (365 * yoe + yoe / 4 - yoe / 100) in
  let mp := (5 * doy + 2) / 153 in
  let d := doy - (153 * mp + 2) / 5 + 1 in
  let m := if mp <? 10 then mp + 3 else mp - 9 in
  let y := yoe + era * 400 + (if m <=? 2 then 1 else 0) in
  mkTm (y - 1900) (m - 1) d (secs / 3600) (secs mod 3600 / 60) (secs mod 60).

(** The last component of a path, after its last separator. *)
Fixpoint last_component (acc path : wstring) : wstring :=
  match path with
  | [] => acc
  | c :: rest =>
      if wchar_eqb c 92%N || wchar_eqb c 47%N then last_component [] rest
      else last_component (acc ++ [c]) rest
  end.

Definition platform : Platform State :=
  {| GetModuleFileNameW := fun nSize s => copy_out (self_path s) nSize s;
     GetModuleBaseNameW := sim_GetModuleBaseNameW;
     GetLastError := error;
     EnumProcesses := sim_EnumProcesses;
     OpenProcess := sim_OpenProcess;
     CloseHandle := fun _ s => s;
     GetCurrentProcessId := self_pid;
     GetCurrentProcess := INVALID_HANDLE_VALUE;
     GetProcessId := fun h s =>
       if h =? INVALID_HANDLE_VALUE then self_pid s else handle_process h;
     GetTempPathW := fun n s => copy_out (temp_path s) n s;
     time := fun s => (clock s, s);
     gmtime := sim_gmtime;
     CreateFileW := sim_CreateFileW;
     MiniDumpWriteDump := fun _ _ _ _ s => (true, s);
     formatSystemMessage := fun e => L "error " ++ to_wstring e;
     path_filename := last_component [] |}.

(** Noon of 15 January 2024, UTC. *)
Definition noon : Z := 1705320000.

Definition mo : wstring := L "C:\MO2\ModOrganizer.exe".

End Sim.

(** ** Laws of computations *)

Section Laws.

Context {OS : Type}.

Lemma val_bind {A B} (m : M OS A) (f : A -> M OS B) (s : OS) :
  val (bind m f s) = val (f (val (m s)) (st (m s))).
Proof. reflexivity. Qed.

Lemma st_bind {A B} (m : M OS A) (f : A -> M OS B) (s : OS) :
  st (bind m f s) = st (f (val (m s)) (st (m s))).
Proof. reflexivity. Qed.

Lemma tr_bind {A B} (m : M OS A) (f : A -> M OS B) (s : OS) :
  tr (bind m f s) = tr (m s) ++ tr (f (val (m s)) (st (m s))).
Proof. reflexivity. Qed.

Lemma run_ret {A} (a : A) (s : OS) :
  val (ret a s) = a /\ st (ret a s) = s /\ tr (ret a s) = [].
Proof. repeat split. Qed.

Lemma run_emit (e : Event) (s : OS) :
  val (emit e s) = tt /\ st (emit e s) = s /\ tr (emit e s) = [e].
Proof. repeat split. Qed.

Lemma run_call {A} (c : ApiCall) (f : OS -> A * OS) (s : OS) :
  val (call c f s) = fst (f s) /\ st (call c f s) = snd (f s)
  /\ tr (call c f s) = [Call c].
Proof. repeat split. Qed.

Lemma run_query {A} (c : ApiCall) (f : OS -> A) (s : OS) :
  val (query c f s) = f s /\ st (query c f s) = s /\ tr (query c f s) = [Call c].
Proof. repeat split. Qed.

Definition val_ret {A} (a : A) s := proj1 (run_ret a s).
Definition st_ret {A} (a : A) s := proj1 (proj2 (run_ret a s)).
Definition tr_ret {A} (a : A) s := proj2 (proj2 (run_ret a s)).
Definition val_emit e s := proj1 (run_emit e s).
Definition st_emit e s := proj1 (proj2 (run_emit e s)).
Definition tr_emit e s := proj2 (proj2 (run_emit e s)).
Definition val_call {A} c (f : OS -> A * OS) s := proj1 (run_call c f s).
Definition st_call {A} c (f : OS -> A * OS) s := proj1 (proj2 (run_call c f s)).
Definition tr_call {A} c (f : OS -> A * OS) s := proj2 (proj2 (run_call c f s)).
Definition val_query {A} c (f : OS -> A) s := proj1 (run_query c f s).
Definition st_query {A} c (f : OS -> A) s := proj1 (proj2 (run_query c f s)).
Definition tr_query {A} c (f : OS -> A) s := proj2 (proj2 (run_query c f s)).

Lemma Forall_tr_bind {A B} (P : Event -> Prop) (m : M OS A) (f : A -> M OS B) (s : OS) :
  Forall P (tr (m s)) ->
  (forall a s', Forall P (tr (f a s'))) ->
  Forall P (tr (bind m f s)).
Proof.
  intros Hm Hf. rewrite tr_bind. apply Forall_app. split; [exact Hm | apply Hf].
Qed.

Lemma error_output_app (t u : list Event) :
  error_output (t ++ u) = error_output t ++ error_output u.
Proof. unfold error_output. apply filter_app. Qed.

End Laws.

#[global] Hint Rewrite @val_bind @st_bind @tr_bind @val_ret @st_ret @tr_ret
  @val_emit @st_emit @tr_emit @val_call @st_call @tr_call
  @val_query @st_query @tr_query : run.

Create HintDb trace.

(** Decomposes a goal [Forall P (tr (c s))] along the structure of [c]. *)
Ltac trace_step :=
  match goal with
  | |- Forall _ (tr (bind _ _ _)) => apply Forall_tr_bind; [ | intros ? ? ]
  | |- Forall _ (tr (ret _ _)) => apply Forall_nil
  | |- Forall _ (tr (emit _ _)) => apply Forall_cons; [ | apply Forall_nil ]
  | |- Forall _ (tr (call _ _ _)) => apply Forall_cons; [ | apply Forall_nil ]
  | |- Forall _ (tr (query _ _ _)) => apply Forall_cons; [ | apply Forall_nil ]
  | |- Forall _ (tr ((if ?c then _ else _) _)) => destruct c
  | |- Forall _ (tr ((match ?c with _ => _ end) _)) => destruct c
  | |- Forall _ (tr ((let (_, _) := ?c in _) _)) => destruct c
  end.

Ltac trace_solve :=
  repeat first [ solve [ auto with trace ] | trace_step | exact I | reflexivity ].

(** ** What each function may emit *)

(** The events of process discovery: no process is opened under the
    identifier zero, and nothing of the allocator or the capturer is called. *)
Definition discovery_event (e : Event) : Prop :=
  match e with
  | Call (CallOpenProcess _ processId) => processId <> 0
  | Call (CallCreateFileW _) => False
  | Call (CallMiniDumpWriteDump _ _ _ _) => False
  | Call (CallGetTempPathW _) => False
  | Call CallTime => False
  | _ => True
  end.

(** The events of the allocator: no snapshot is written and no process is
    looked at. *)
Definition allocation_event (e : Event) : Prop :=
  match e with
  | Call (CallMiniDumpWriteDump _ _ _ _) => False
  | Call (CallOpenProcess _ _) => False
  | Call (CallEnumProcesses _) => False
  | _ => True
  end.

Section Alphabets.

Context {OS : Type}.
Variable api : Platform OS.

Lemma last_error_discovery s : Forall discovery_event (tr (last_error api s)).
Proof. unfold last_error. trace_solve. Qed.

Lemma last_error_allocation s : Forall allocation_event (tr (last_error api s)).
Proof. unfold last_error. trace_solve. Qed.

Lemma HandlePtr_destroy_discovery h s :
  Forall discovery_event (tr (HandlePtr_destroy api h s)).
Proof. unfold HandlePtr_destroy. trace_solve. Qed.

Lemma HandlePtr_destroy_allocation h s :
  Forall allocation_event (tr (HandlePtr_destroy api h s)).
Proof. unfold HandlePtr_destroy. trace_solve. Qed.

Hint Resolve last_error_discovery last_error_allocation
  HandlePtr_destroy_discovery HandlePtr_destroy_allocation : trace.

Lemma processFilename_loop_discovery process tries bufferSize s :
  Forall discovery_event (tr (processFilename_loop api process tries bufferSize s)).
Proof.
  revert bufferSize s.
  induction tries as [|tries IH]; intros bufferSize s;
    cbn [processFilename_loop]; trace_solve.
Qed.

Hint Resolve processFilename_loop_discovery : trace.

Lemma processFilename_discovery process s :
  Forall discovery_event (tr (processFilename api process s)).
Proof. unfold processFilename. trace_solve. Qed.

Lemma EnumProcesses_into_discovery size bytesGiven s :
  Forall discovery_event (tr (EnumProcesses_into api size bytesGiven s)).
Proof. unfold EnumProcesses_into. trace_solve. Qed.

Hint Resolve processFilename_discovery EnumProcesses_into_discovery : trace.

Lemma runningProcessesIds_loop_discovery tries size s :
  Forall discovery_event (tr (runningProcessesIds_loop api tries size s)).
Proof.
  revert size s.
  induction tries as [|tries IH]; intros size s;
    cbn [runningProcessesIds_loop]; trace_solve.
Qed.

Hint Resolve runningProcessesIds_loop_discovery : trace.

Lemma runningProcessesIds_discovery s :
  Forall discovery_event (tr (runningProcessesIds api s)).
Proof. unfold runningProcessesIds. trace_solve. Qed.

Lemma runningProcesses_body_discovery pid v s :
  Forall discovery_event (tr (runningProcesses_body api pid v s)).
Proof.
  unfold runningProcesses_body.
  destruct (pid =? 0) eqn:E; [apply Forall_nil|].
  apply Z.eqb_neq in E.
  apply Forall_tr_bind.
  - apply Forall_cons; [exact E | apply Forall_nil].
  - intros h s'. trace_solve.
Qed.

Hint Resolve runningProcessesIds_discovery runningProcesses_body_discovery : trace.

Lemma runningProcesses_loop_discovery pids v s :
  Forall discovery_event (tr (runningProcesses_loop api pids v s)).
Proof.
  revert v s.
  induction pids as [|pid rest IH]; intros v s;
    cbn [runningProcesses_loop]; trace_solve.
Qed.

Hint Resolve runningProcesses_loop_discovery : trace.

Lemma runningProcesses_discovery s :
  Forall discovery_event (tr (runningProcesses api s)).
Proof. unfold runningProcesses. trace_solve. Qed.

Hint Resolve runningProcesses_discovery : trace.

Lemma findOtherPid_discovery s :
  Forall discovery_event (tr (findOtherPid api s)).
Proof. unfold findOtherPid. trace_solve. Qed.

Lemma tempDir_allocation s : Forall allocation_event (tr (tempDir api s)).
Proof. unfold tempDir. trace_solve. Qed.

Lemma tempFile_loop_allocation dir prefix n i path s :
  Forall allocation_event (tr (tempFile_loop api dir prefix n i path s)).
Proof.
  revert i path s.
  induction n as [|n IH]; intros i path s;
    cbn [tempFile_loop]; trace_solve.
Qed.

Hint Resolve tempDir_allocation tempFile_loop_allocation : trace.

Lemma tempFile_allocation dir s : Forall allocation_event (tr (tempFile api dir s)).
Proof. unfold tempFile. trace_solve. Qed.

Hint Resolve tempFile_allocation : trace.

Lemma dumpFile_allocation s : Forall allocation_event (tr (dumpFile api s)).
Proof. unfold dumpFile. trace_solve. Qed.

End Alphabets.

(** ** The dump capturer *)

(** The events of a capture: every snapshot call carries the flags computed
    for the requested type. *)
Definition capture_event (type : CoreDumpTypes) (e : Event) : Prop :=
  match e with
  | Call (CallMiniDumpWriteDump _ _ _ flags) => flags = dump_flags type
  | _ => True
  end.

Lemma allocation_capture_event type (t : list Event) :
  Forall allocation_event t -> Forall (capture_event type) t.
Proof.
  apply Forall_impl. intros [[]| | |]; simpl; tauto.
Qed.

Lemma createMiniDump_events {OS} (api : Platform OS) process type s :
  Forall (capture_event type) (tr (createMiniDump api process type s)).
Proof.
  pose proof (fun s => allocation_capture_event type _ (dumpFile_allocation api s)).
  pose proof (fun h s => allocation_capture_event type _ (HandlePtr_destroy_allocation api h s)).
  pose proof (fun s => allocation_capture_event type _ (last_error_allocation api s)).
  unfold createMiniDump. trace_solve.
Qed.

Lemma testbit_below (f n : Z) :
  0 <= f < 2 ^ 9 -> Z.testbit f n = true ->
  n = 0 \/ n = 1 \/ n = 2 \/ n = 3 \/ n = 4 \/ n = 5 \/ n = 6 \/ n = 7 \/ n = 8.
Proof.
  intros Hf Hbit.
  assert (0 <= n) by (destruct n; try lia; discriminate).
  assert (n < 9); [|lia].
  destruct (Z.ltb_spec n 9) as [|Hge]; [assumption|].
  destruct (Z.eq_dec f 0) as [->|Hnz]; [rewrite Z.bits_0 in Hbit; discriminate|].
  rewrite Z.bits_above_log2 in Hbit; [discriminate|lia|].
  assert (Z.log2 f < 9); [|lia].
  apply Z.log2_lt_pow2; lia.
Qed.

(** C6: whatever the target and the state of the system, a snapshot call made
    by [createMiniDump] carries, for [Mini], the baseline of normal content,
    handle data, unloaded modules and thread data; for [Data] the baseline and
    the data segments; for [Full] the baseline and the full memory; bit by
    bit, nothing else is ever set. *)
Theorem createMiniDump_flag_set :
  forall {OS} (api : Platform OS) process type s p i f flags,
    In (Call (CallMiniDumpWriteDump p i f flags))
       (tr (createMiniDump api process type s)) ->
    let baseline :=
      Z.lor (Z.lor (Z.lor MiniDumpNormal MiniDumpWithHandleData)
                   MiniDumpWithUnloadedModules)
            MiniDumpWithProcessThreadData in
    flags = match type with
            | Mini => baseline
            | Data => Z.lor baseline MiniDumpWithDataSegs
            | Full => Z.lor baseline MiniDumpWithFullMemory
            end
    /\ (forall n, Z.testbit flags n = true <->
                  n = 2 \/ n = 5 \/ n = 8
                  \/ (type = Data /\ n = 0) \/ (type = Full /\ n = 1)).
Proof.
  intros OS api process type s p i f flags Hin baseline.
  pose proof (createMiniDump_events api process type s) as Hall.
  rewrite Forall_forall in Hall. specialize (Hall _ Hin). simpl in Hall.
  subst flags. split.
  - destruct type; reflexivity.
  - intro n. split.
    + intro Hbit.
      assert (Hsmall : 0 <= dump_flags type < 2 ^ 9)
        by (destruct type; vm_compute; split; congruence).
      destruct (testbit_below _ _ Hsmall Hbit)
        as [->|[->|[->|[->|[->|[->|[->|[->| ->]]]]]]]];
        destruct type; vm_compute in Hbit; try discriminate; tauto.
    + intros [->|[->|[->|[[-> ->]|[-> ->]]]]]; try destruct type; reflexivity.
Qed.

(** A system where a dump of the running process is written. *)
Definition capture_state : Sim.State :=
  Sim.mkState 10 Sim.mo [Sim.mkProc 10 (L "ModOrganizer.exe") 0] 0 [] []
              (L "C:\Temp\") Sim.noon 0.

Lemma createMiniDump_flag_set_witness :
  In (Call (CallMiniDumpWriteDump INVALID_HANDLE_VALUE 10 1 0x125))
     (tr (createMiniDump Sim.platform INVALID_HANDLE_VALUE Data capture_state))
  /\ 0x125 = Z.lor (Z.lor (Z.lor (Z.lor MiniDumpNormal MiniDumpWithHandleData)
                                 MiniDumpWithUnloadedModules)
                          MiniDumpWithProcessThreadData)
                   MiniDumpWithDataSegs.
Proof.
  assert (Hin : In (Call (CallMiniDumpWriteDump INVALID_HANDLE_VALUE 10 1 0x125))
                   (tr (createMiniDump Sim.platform INVALID_HANDLE_VALUE Data
                          capture_state))).
  { vm_compute. tauto. }
  split; [exact Hin|].
  exact (proj1 (createMiniDump_flag_set Sim.platform INVALID_HANDLE_VALUE Data
                  capture_state _ _ _ _ Hin)).
Defined.

(** ** The process directory *)

Section Directory.

Context {OS : Type}.
Variable api : Platform OS.

Lemma runningProcesses_body_pids id v s :
  Forall (fun p => pid p <> 0) v ->
  Forall (fun p => pid p <> 0) (val (runningProcesses_body api id v s)).
Proof.
  intro Hv. unfold runningProcesses_body.
  destruct (id =? 0) eqn:E; [exact Hv|].
  apply Z.eqb_neq in E.
  rewrite val_bind.
  destruct (negb (HandlePtr_bool _)).
  - exact Hv.
  - rewrite !val_bind.
    destruct (negb (empty _)); [|exact Hv].
    apply Forall_app. split; [exact Hv|].
    apply Forall_cons; [exact E|apply Forall_nil].
Qed.

Lemma runningProcesses_loop_pids pids v s :
  Forall (fun p => pid p <> 0) v ->
  Forall (fun p => pid p <> 0) (val (runningProcesses_loop api pids v s)).
Proof.
  revert v s.
  induction pids as [|id rest IH]; intros v s Hv; cbn [runningProcesses_loop].
  - exact Hv.
  - rewrite val_bind. apply IH. apply runningProcesses_body_pids. exact Hv.
Qed.

(** C7: whatever identifiers the enumeration returns, no record of
    [runningProcesses] has the identifier zero, no process is opened under
    the identifier zero, and the iteration on the identifier zero does
    nothing at all: the records and the system are as before and no call is
    made. *)
Theorem runningProcesses_skips_zero :
  forall s,
    Forall (fun p => pid p <> 0) (val (runningProcesses api s))
    /\ (forall access, ~ In (Call (CallOpenProcess access 0)) (tr (runningProcesses api s)))
    /\ (forall v s', runningProcesses_body api 0 v s' = (v, s', [])).
Proof.
  intro s. split; [|split].
  - unfold runningProcesses. rewrite val_bind.
    apply runningProcesses_loop_pids. apply Forall_nil.
  - intros access Hin.
    pose proof (runningProcesses_discovery api s) as Hall.
    rewrite Forall_forall in Hall. apply (Hall _ Hin). reflexivity.
  - reflexivity.
Qed.

(** The iteration on an identifier whose process cannot be opened: nothing
    is added to the records, and after the attempt and the reading of the
    error one line is written unless the error is access-denied. *)
Lemma runningProcesses_body_open_failure id v s :
  id <> 0 ->
  let opened := OpenProcess api open_access id s in
  fst opened = NULL ->
  let e := GetLastError api (snd opened) in
  let r := runningProcesses_body api id v s in
  val r = v
  /\ st r = snd opened
  /\ tr r = [Call (CallOpenProcess open_access id); Call CallGetLastError]
            ++ (if e =? ERROR_ACCESS_DENIED then []
                else [Wcerr (L "failed to open process " ++ to_wstring id ++ L ", "
                               ++ formatSystemMessage api e ++ endl)]).
Proof.
  intros Hid opened Hnull e r.
  apply Z.eqb_neq in Hid.
  subst r. unfold runningProcesses_body. rewrite Hid.
  rewrite val_bind, st_bind, tr_bind, val_call, st_call, tr_call.
  fold opened. rewrite Hnull.
  change (negb (HandlePtr_bool NULL)) with true. cbv iota.
  unfold last_error, HandlePtr_destroy. change (NULL =? NULL) with true. cbv iota.
  autorewrite with run. fold e.
  destruct (e =? ERROR_ACCESS_DENIED); repeat split.
Qed.

(** The loop over a list of identifiers in two parts. *)
Lemma runningProcesses_loop_app before :
  forall after v s,
    let p := runningProcesses_loop api before v s in
    let q := runningProcesses_loop api after (val p) (st p) in
    let r := runningProcesses_loop api (before ++ after) v s in
    val r = val q /\ st r = st q /\ tr r = tr p ++ tr q.
Proof.
  induction before as [|id before IH]; intros after v s p q r; subst p q r.
  - cbn [app runningProcesses_loop]. repeat split.
  - cbn [app runningProcesses_loop].
    rewrite !val_bind, !st_bind, !tr_bind.
    destruct (IH after (val (runningProcesses_body api id v s))
                 (st (runningProcesses_body api id v s))) as (Hv & Hs & Ht).
    rewrite Hv, Hs, Ht, app_assoc. repeat split.
Qed.

(** C8: take a run of [runningProcesses] and any entry of the enumeration
    that is not zero; when the process cannot be opened, in the state the run
    has reached at that entry, the run consists of the enumeration, the
    iterations on the entries before, the attempt and the reading of the
    error, one line on the error stream unless the error is access-denied,
    and the iterations on the entries after, which start from the records as
    they were.  So to the error output of the whole run an attempt that fails
    under access-denied adds nothing, and an attempt that fails otherwise
    adds exactly one line, which carries the identifier in decimal and the
    description of the error. *)
Theorem runningProcesses_open_failure_log :
  forall s before id after,
    let ids := runningProcessesIds api s in
    val ids = before ++ id :: after ->
    id <> 0 ->
    let earlier := runningProcesses_loop api before [] (st ids) in
    let opened := OpenProcess api open_access id (st earlier) in
    fst opened = NULL ->
    let e := GetLastError api (snd opened) in
    let line := Wcerr (L "failed to open process " ++ to_wstring id ++ L ", "
                         ++ formatSystemMessage api e ++ endl) in
    let later := runningProcesses_loop api after (val earlier) (snd opened) in
    let r := runningProcesses api s in
    val r = val later
    /\ tr r = tr ids ++ tr earlier
              ++ [Call (CallOpenProcess open_access id); Call CallGetLastError]
              ++ (if e =? ERROR_ACCESS_DENIED then [] else [line])
              ++ tr later
    /\ (e = ERROR_ACCESS_DENIED ->
        error_output (tr r)
        = error_output (tr ids) ++ error_output (tr earlier)
          ++ error_output (tr later))
    /\ (e <> ERROR_ACCESS_DENIED ->
        error_output (tr r)
        = error_output (tr ids) ++ error_output (tr earlier)
          ++ [line] ++ error_output (tr later)).
Proof.
  intros s before id after ids Hids Hid earlier opened Hnull e line later r.
  destruct (runningProcesses_loop_app before (id :: after) [] (st ids))
    as (Hv & _ & Ht).
  fold earlier in Hv, Ht. cbn [runningProcesses_loop] in Hv, Ht.
  rewrite val_bind in Hv. rewrite tr_bind in Ht.
  destruct (runningProcesses_body_open_failure id (val earlier) (st earlier)
              Hid Hnull) as (Hbv & Hbs & Hbt).
  fold opened in Hbs, Hbt. fold e in Hbt. fold line in Hbt.
  rewrite Hbv, Hbs in Hv, Ht. rewrite Hbt in Ht. fold later in Hv, Ht.
  assert (Htr : tr r = tr ids ++ tr earlier
                       ++ [Call (CallOpenProcess open_access id); Call CallGetLastError]
                       ++ (if e =? ERROR_ACCESS_DENIED then [] else [line])
                       ++ tr later).
  { subst r. unfold runningProcesses. rewrite tr_bind. fold ids.
    rewrite Hids, Ht, <- !app_assoc. reflexivity. }
  split; [|split; [exact Htr|split]].
  - subst r. unfold runningProcesses. rewrite val_bind. fold ids.
    rewrite Hids. exact Hv.
  - intro He. rewrite Htr, He, Z.eqb_refl.
    rewrite !error_output_app. reflexivity.
  - intro He. rewrite Htr, (proj2 (Z.eqb_neq _ _) He).
    rewrite !error_output_app. reflexivity.
Qed.

End Directory.

(** A system with a protected process and one that is gone by the time it is
    opened. *)
Definition guarded_state : Sim.State :=
  Sim.mkState 10 Sim.mo
    [Sim.mkProc 0 [] 87; Sim.mkProc 4 (L "System") ERROR_ACCESS_DENIED;
     Sim.mkProc 8 (L "gone.exe") 87; Sim.mkProc 10 (L "ModOrganizer.exe") 0]
    0 [] [] (L "C:\Temp\") Sim.noon 0.

Lemma runningProcesses_open_failure_log_witness :
  error_output (tr (runningProcesses Sim.platform guarded_state))
  = [Wcerr (L "failed to open process 8, error 87" ++ endl)]
  /\ val (runningProcesses Sim.platform guarded_state)
     = [mkProcess (L "ModOrganizer.exe") 10].
Proof.
  assert (Hdenied :=
    runningProcesses_open_failure_log Sim.platform guarded_state
      [0] 4 [8; 10] eq_refl ltac:(discriminate) eq_refl).
  assert (Hfailed :=
    runningProcesses_open_failure_log Sim.platform guarded_state
      [0; 4] 8 [10] eq_refl ltac:(discriminate) eq_refl).
  cbv zeta in Hdenied, Hfailed.
  destruct Hdenied as (Hrecords & _ & _ & _).
  destruct Hfailed as (_ & _ & _ & Hline).
  split.
  - rewrite Hline; [vm_compute; reflexivity|vm_compute; discriminate].
  - rewrite Hrecords. vm_compute. reflexivity.
Defined.

(** ** The two entry points *)

(** A trace in which no dump file is created and no snapshot is written. *)
Definition no_capture (t : list Event) : Prop :=
  (forall path, ~ In (Call (CallCreateFileW path)) t)
  /\ (forall p i f flags, ~ In (Call (CallMiniDumpWriteDump p i f flags)) t).

Lemma discovery_no_capture (t : list Event) :
  Forall discovery_event t -> no_capture t.
Proof.
  intro Hall. rewrite Forall_forall in Hall.
  split; intros; intro Hin; exact (Hall _ Hin).
Qed.

Section Entry.

Context {OS : Type}.
Variable api : Platform OS.

(** C9: [coredumpOther] runs [findOtherPid] first.  When that returns zero,
    or when the process it found cannot be opened, the result is [false] and
    the run creates no dump file and makes no snapshot call.  Otherwise the
    result is that of [createMiniDump] on the opened handle, whose run is
    the only part of the trace with such calls; [coredump] runs the same
    routine on the handle of the current process. *)
Theorem coredumpOther_capture_or_not :
  forall type s,
    let found := findOtherPid api s in
    let opened := OpenProcess api open_access (val found) (st found) in
    let r := coredumpOther api type s in
    (val found = 0 \/ fst opened = NULL ->
       val r = false /\ no_capture (tr r))
    /\ (val found <> 0 -> fst opened <> NULL ->
        let capture := createMiniDump api (fst opened) type (snd opened) in
        val r = val capture
        /\ exists before after,
             tr r = before ++ tr capture ++ after
             /\ no_capture before /\ no_capture after)
    /\ (forall s',
          let capture := createMiniDump api (GetCurrentProcess api) type s' in
          val (coredump api type s') = val capture
          /\ tr (coredump api type s')
             = [Wclog (L "creating minidump for the current process" ++ endl);
                Call CallGetCurrentProcess] ++ tr capture).
Proof.
  intros type s found opened r.
  pose proof (findOtherPid_discovery api s) as Hfound. fold found in Hfound.
  assert (Hzero : val found = 0 -> val r = false /\ no_capture (tr r)).
  { intro H0. subst r. unfold coredumpOther.
    autorewrite with run. fold found. rewrite H0.
    change (0 =? 0) with true. cbv iota. autorewrite with run.
    split; [reflexivity|].
    apply discovery_no_capture.
    apply Forall_cons; [exact I|].
    apply Forall_app. split; [exact Hfound|].
    apply Forall_cons; [exact I|apply Forall_nil]. }
  split; [|split].
  - intros [H0|Hnull]; [exact (Hzero H0)|].
    destruct (Z.eq_dec (val found) 0) as [H0|Hne]; [exact (Hzero H0)|].
    subst r. unfold coredumpOther.
    autorewrite with run. fold found.
    rewrite (proj2 (Z.eqb_neq _ _) Hne). cbv iota.
    autorewrite with run. fold opened. rewrite Hnull.
    change (negb (HandlePtr_bool NULL)) with true. cbv iota.
    unfold last_error, HandlePtr_destroy. change (NULL =? NULL) with true. cbv iota.
    autorewrite with run.
    split; [reflexivity|].
    apply discovery_no_capture.
    apply Forall_cons; [exact I|].
    apply Forall_app. split; [exact Hfound|].
    repeat (apply Forall_cons; [first [exact I | exact Hne]|]). apply Forall_nil.
  - intros Hne Hopen capture.
    subst r. unfold coredumpOther.
    autorewrite with run. fold found.
    rewrite (proj2 (Z.eqb_neq _ _) Hne). cbv iota.
    autorewrite with run. fold opened.
    unfold HandlePtr_bool. rewrite (proj2 (Z.eqb_neq _ _) Hopen).
    change (negb (negb false)) with false. cbv iota.
    autorewrite with run. unfold HandlePtr_get. fold capture.
    split; [reflexivity|].
    exists ([Wclog (L "creating minidump for an running process" ++ endl)]
              ++ tr found
              ++ [Wclog (L "found other process with pid "
                           ++ to_wstring (val found) ++ endl)]
              ++ [Call (CallOpenProcess open_access (val found))]),
           (tr (HandlePtr_destroy api (fst opened) (st capture))).
    split; [|split].
    + rewrite <- !app_assoc, app_nil_r. reflexivity.
    + apply discovery_no_capture.
      apply Forall_cons; [exact I|].
      apply Forall_app. split; [exact Hfound|].
      apply Forall_cons; [exact I|].
      apply Forall_cons; [exact Hne|apply Forall_nil].
    + apply discovery_no_capture. apply HandlePtr_destroy_discovery.
  - intros s' capture. unfold coredump. autorewrite with run.
    fold capture. cbn [app]. split; reflexivity.
Qed.

End Entry.

(** ** The sibling locator *)

(** The claimed comparison of filenames, as the operating system compares
    them: letters match whatever their case. *)
Definition fold_case (c : wchar_t) : wchar_t :=
  if ((65 <=? c) && (c <=? 90))%N then (c + 32)%N else c.

Definition same_filename_os (a b : wstring) : bool :=
  wstring_eqb (map fold_case a) (map fold_case b).

(** The claimed result of the sibling locator on a list of records: the
    identifier of the first record whose filename matches under that
    comparison and whose identifier is not the caller's, zero without one. *)
Definition findSiblingPid_claimed (name : wstring) (thisPid : DWORD)
    (processes : list Process) : DWORD :=
  match find (fun p => same_filename_os (filename p) name
                       && negb (pid p =? thisPid)) processes with
  | Some p => pid p
  | None => 0
  end.

(** Two instances of the program whose images are spelled in different
    case. *)
Definition mixed_case_state : Sim.State :=
  Sim.mkState 10 Sim.mo
    [Sim.mkProc 4 (L "System") ERROR_ACCESS_DENIED;
     Sim.mkProc 10 (L "ModOrganizer.exe") 0;
     Sim.mkProc 20 (L "modorganizer.exe") 0]
    0 [] [] (L "C:\Temp\") Sim.noon 0.

(** Three instances of the program. *)
Definition siblings_state : Sim.State :=
  Sim.mkState 10 Sim.mo
    [Sim.mkProc 0 [] 87; Sim.mkProc 4 (L "System") ERROR_ACCESS_DENIED;
     Sim.mkProc 10 (L "ModOrganizer.exe") 0;
     Sim.mkProc 30 (L "ModOrganizer.exe") 0;
     Sim.mkProc 20 (L "ModOrganizer.exe") 0]
    0 [] [] (L "C:\Temp\") Sim.noon 0.

Lemma wstring_eqb_eq (a b : wstring) : wstring_eqb a b = true <-> a = b.
Proof.
  revert b. induction a as [|x a IH]; intros [|y b]; simpl; split;
    try reflexivity; try discriminate.
  - intro H. apply andb_prop in H. destruct H as [Hxy Hab].
    apply N.eqb_eq in Hxy. apply IH in Hab. congruence.
  - intro H. injection H as -> ->. unfold wchar_eqb. rewrite N.eqb_refl.
    apply IH. reflexivity.
Qed.

Lemma findOtherPid_scan_none name thisPid processes :
  (forall q, In q processes -> ~ (filename q = name /\ pid q <> thisPid)) ->
  findOtherPid_scan name thisPid processes = None.
Proof.
  induction processes as [|p rest IH]; intro Hno; simpl; [reflexivity|].
  assert (Hrest : findOtherPid_scan name thisPid rest = None)
    by (apply IH; intros q Hq; apply Hno; right; exact Hq).
  destruct (wstring_eqb (filename p) name) eqn:En; [|exact Hrest].
  destruct (pid p =? thisPid) eqn:Ep; [exact Hrest|].
  exfalso. apply (Hno p); [left; reflexivity|].
  split; [apply wstring_eqb_eq; exact En | apply Z.eqb_neq; exact Ep].
Qed.

Lemma findOtherPid_scan_first name thisPid before p after :
  filename p = name -> pid p <> thisPid ->
  (forall q, In q before -> ~ (filename q = name /\ pid q <> thisPid)) ->
  findOtherPid_scan name thisPid (before ++ p :: after) = Some (pid p).
Proof.
  intros Hname Hpid.
  induction before as [|q before IH]; intro Hno; simpl.
  - rewrite (proj2 (wstring_eqb_eq _ _) Hname).
    rewrite (proj2 (Z.eqb_neq _ _) Hpid). reflexivity.
  - assert (Hrest : findOtherPid_scan name thisPid (before ++ p :: after) = Some (pid p))
      by (apply IH; intros q' Hq'; apply Hno; right; exact Hq').
    destruct (wstring_eqb (filename q) name) eqn:En; [|exact Hrest].
    destruct (pid q =? thisPid) eqn:Ep; [exact Hrest|].
    exfalso. apply (Hno q); [left; reflexivity|].
    split; [apply wstring_eqb_eq; exact En | apply Z.eqb_neq; exact Ep].
Qed.

Section Sibling.

Context {OS : Type}.
Variable api : Platform OS.

(** The value of [findOtherPid] is that of its scan, on the name and the
    records it has computed by then. *)
Lemma findOtherPid_val s :
  let own := processFilename api INVALID_HANDLE_VALUE s in
  let name := if empty (val own) then defaultName else val own in
  val (findOtherPid api s)
  = match findOtherPid_scan name (GetCurrentProcessId api s)
            (val (runningProcesses api (st own))) with
    | Some other => other
    | None => 0
    end.
Proof.
  intros own name. unfold findOtherPid.
  autorewrite with run. fold own. subst name.
  destruct (empty (val own)); autorewrite with run;
    destruct (findOtherPid_scan _ _ _); reflexivity.
Qed.

(** C2, amended: [findOtherPid] returns the identifier of the first record,
    in the order of [runningProcesses], whose filename is code unit for code
    unit the name of the current process (or the default name when that
    cannot be told) and whose identifier is not the caller's; it returns
    zero when there is no such record. *)
Theorem findOtherPid_first_exact_match :
  forall s,
    let thisPid := GetCurrentProcessId api s in
    let own := processFilename api INVALID_HANDLE_VALUE s in
    let name := if empty (val own) then defaultName else val own in
    let processes := val (runningProcesses api (st own)) in
    (forall before p after,
        processes = before ++ p :: after ->
        filename p = name -> pid p <> thisPid ->
        (forall q, In q before -> ~ (filename q = name /\ pid q <> thisPid)) ->
        val (findOtherPid api s) = pid p)
    /\ ((forall q, In q processes -> ~ (filename q = name /\ pid q <> thisPid)) ->
        val (findOtherPid api s) = 0).
Proof.
  intros s thisPid own name processes.
  pose proof (findOtherPid_val s) as Hval. cbv zeta in Hval.
  fold own in Hval. fold name in Hval. fold thisPid in Hval. fold processes in Hval.
  split.
  - intros before p after Hsplit Hname Hpid Hno.
    rewrite Hval, Hsplit.
    rewrite (findOtherPid_scan_first _ _ _ _ _ Hname Hpid Hno). reflexivity.
  - intro Hno. rewrite Hval.
    rewrite (findOtherPid_scan_none _ _ _ Hno). reflexivity.
Qed.

End Sibling.

(** C2 as claimed fails: with a second instance whose image is spelled in
    lower case, the claimed result is that instance and [findOtherPid]
    returns zero. *)
Lemma findOtherPid_is_case_sensitive :
  val (findOtherPid Sim.platform mixed_case_state) = 0
  /\ findSiblingPid_claimed (L "ModOrganizer.exe") 10
       (val (runningProcesses Sim.platform mixed_case_state)) = 20
  /\ val (findOtherPid Sim.platform mixed_case_state)
     <> findSiblingPid_claimed (L "ModOrganizer.exe") 10
          (val (runningProcesses Sim.platform mixed_case_state)).
Proof. vm_compute. repeat split; discriminate. Qed.

Lemma findOtherPid_first_exact_match_witness :
  val (findOtherPid Sim.platform siblings_state) = 30.
Proof.
  refine (proj1 (findOtherPid_first_exact_match Sim.platform siblings_state)
            [mkProcess (L "ModOrganizer.exe") 10]
            (mkProcess (L "ModOrganizer.exe") 30)
            [mkProcess (L "ModOrganizer.exe") 20] _ _ _ _).
  - vm_compute. reflexivity.
  - vm_compute. reflexivity.
  - vm_compute. discriminate.
  - intros q Hq [_ Hpid]. destruct Hq as [<-|[]]. apply Hpid. reflexivity.
Defined.

(** ** The growing buffers *)

(** Spells out the bounds of the machine integers. *)
Ltac word_bounds :=
  change (2 ^ 32) with 4294967296 in *;
  change (2 ^ 64) with 18446744073709551616 in *.

(** A size doubled [k] times. *)
Definition doubled (size : Z) (k : nat) : Z := size * 2 ^ Z.of_nat k.

Lemma doubled_0 size : doubled size 0 = size.
Proof. unfold doubled. simpl. lia. Qed.

Lemma doubled_S size k : doubled size (S k) = doubled (size * 2) k.
Proof. unfold doubled. rewrite Nat2Z.inj_succ, Z.pow_succ_r by lia. lia. Qed.

Lemma doubled_pos size k : 0 < size -> 0 < doubled size k.
Proof. intro H. unfold doubled. apply Z.mul_pos_pos; [exact H|]. apply Z.pow_pos_nonneg; lia. Qed.

Lemma doubled_le size k : 0 < size -> size <= doubled size k.
Proof.
  intro H. unfold doubled.
  assert (0 < 2 ^ Z.of_nat k) by (apply Z.pow_pos_nonneg; lia). nia.
Qed.

Lemma map_seq_S {A} (f : nat -> A) (n : nat) :
  map f (seq 0 (S n)) = f 0%nat :: map (fun j => f (S j)) (seq 0 n).
Proof. simpl. f_equal. rewrite <- seq_shift, map_map. reflexivity. Qed.

Lemma stored_exact {A} (zero : A) (cap : nat) (data : list A) :
  (List.length data < cap)%nat ->
  firstn (List.length data) (stored zero cap cap data) = data.
Proof.
  intro H. unfold stored.
  rewrite (firstn_all2 (n := cap)) by lia.
  rewrite firstn_app, firstn_all, Nat.sub_diag, firstn_O. apply app_nil_r.
Qed.

Section Enumeration.

Context {OS : Type}.
Variable api : Platform OS.

(** The state of the system before call [k] (from zero) of a series of
    enumerations started in [s], and the answer to that call. *)
Fixpoint enum_state (k : nat) (s : OS) : OS :=
  match k with
  | O => s
  | S k' => enum_state k' (snd (EnumProcesses api s))
  end.

Definition enum_answer (k : nat) (s : OS) : bool * list DWORD :=
  fst (EnumProcesses api (enum_state k s)).

(** Call [k] succeeds and fills the array of [size] entries doubled [k]
    times. *)
Definition enum_filled (size : Z) (k : nat) (s : OS) : Prop :=
  fst (enum_answer k s) = true
  /\ doubled size k <= Z.of_nat (List.length (snd (enum_answer k s))).

Definition enum_call (size : Z) (k : nat) : Event :=
  Call (CallEnumProcesses (4 * doubled size k)).

Definition enum_failure_line (e : DWORD) : Event :=
  Wcerr (L "failed to enumerate processes, " ++ formatSystemMessage api e ++ endl).

Lemma enum_state_S k s :
  enum_state (S k) s = snd (EnumProcesses api (enum_state k s)).
Proof.
  revert s. induction k as [|k IH]; intro s; [reflexivity|].
  change (enum_state (S (S k)) s) with (enum_state (S k) (snd (EnumProcesses api s))).
  rewrite IH. reflexivity.
Qed.

Lemma EnumProcesses_into_run size s :
  0 < size -> size * 4 < 2 ^ 32 ->
  let a := EnumProcesses api s in
  let r := EnumProcesses_into api size (to_DWORD (to_size_t (size * 4))) s in
  to_DWORD (to_size_t (size * 4)) = 4 * size
  /\ val r = (fst (fst a),
              if fst (fst a)
              then 4 * Z.of_nat (List.length (firstn (Z.to_nat size) (snd (fst a))))
              else 0,
              stored 0 (Z.to_nat size) (Z.to_nat size) (snd (fst a)))
  /\ st r = snd a
  /\ tr r = [Call (CallEnumProcesses (4 * size))].
Proof.
  intros Hpos Hsmall a r.
  assert (Hgiven : to_DWORD (to_size_t (size * 4)) = 4 * size).
  { unfold to_DWORD, to_size_t. word_bounds.
    rewrite (Z.mod_small (size * 4) 18446744073709551616) by lia.
    rewrite Z.mod_small by lia. lia. }
  split; [exact Hgiven|].
  subst r. rewrite Hgiven. unfold EnumProcesses_into.
  autorewrite with run. fold a.
  replace (4 * size / 4) with size by (rewrite Z.mul_comm, Z.div_mul; lia).
  repeat split.
Qed.

(** What a run of the loop of [runningProcessesIds] comes to: [n] calls fill
    their array, then the next call fits, or it fails, or no try is left. *)
Lemma runningProcessesIds_loop_run tries :
  forall size s,
    0 < size -> doubled size tries * 4 < 2 ^ 32 ->
    let r := runningProcessesIds_loop api tries size s in
    exists n,
      (n <= tries)%nat
      /\ (forall j, (j < n)%nat -> enum_filled size j s)
      /\ ( ((n < tries)%nat
            /\ fst (enum_answer n s) = true
            /\ Z.of_nat (List.length (snd (enum_answer n s))) < doubled size n
            /\ val r = Some (snd (enum_answer n s))
            /\ tr r = map (enum_call size) (seq 0 (S n)))
           \/ ((n < tries)%nat
               /\ fst (enum_answer n s) = false
               /\ val r = Some []
               /\ tr r = map (enum_call size) (seq 0 (S n))
                         ++ [Call CallGetLastError;
                             enum_failure_line
                               (GetLastError api (enum_state (S n) s))])
           \/ (n = tries /\ val r = None
               /\ tr r = map (enum_call size) (seq 0 n)) ).
Proof.
  induction tries as [|tries IH]; intros size s Hpos Hsmall r.
  - exists 0%nat. split; [lia|]. split; [intros j Hj; lia|].
    right. right. repeat split.
  - assert (Hle := doubled_le (size * 2) tries ltac:(lia)).
    rewrite doubled_S in Hsmall.
    destruct (EnumProcesses_into_run size s Hpos ltac:(lia))
      as (Hgiven & Hval & Hst & Htr).
    subst r. cbn [runningProcessesIds_loop].
    rewrite val_bind, tr_bind, Hval, Hst, Htr, Hgiven.
    destruct (fst (fst (EnumProcesses api s))) eqn:Hok; cbv iota beta.
    + change (negb true) with false. cbv iota.
      destruct (Z_lt_le_dec (Z.of_nat (List.length (snd (fst (EnumProcesses api s))))) size)
        as [Hfit|Hfull].
      * (* the identifiers fit *)
        rewrite firstn_all2 by lia.
        rewrite (proj2 (Z.eqb_neq _ _)) by lia.
        exists 0%nat. split; [lia|]. split; [intros j Hj; lia|].
        left. split; [lia|]. unfold enum_answer. cbn [enum_state].
        rewrite Hok, doubled_0. split; [reflexivity|]. split; [exact Hfit|].
        autorewrite with run.
        replace (4 * Z.of_nat (List.length (snd (fst (EnumProcesses api s)))) / 4)
          with (Z.of_nat (List.length (snd (fst (EnumProcesses api s)))))
          by (rewrite Z.mul_comm, Z.div_mul; lia).
        rewrite Nat2Z.id, stored_exact by lia.
        split; [reflexivity|].
        cbn [seq map]. unfold enum_call. rewrite doubled_0. reflexivity.
      * (* the array is filled *)
        rewrite length_firstn, Nat.min_l by lia.
        rewrite Z2Nat.id by lia. rewrite Z.eqb_refl.
        assert (Hsize : to_size_t (size * 2) = size * 2)
          by (unfold to_size_t; word_bounds; rewrite Z.mod_small; lia).
        rewrite Hsize.
        destruct (IH (size * 2) (snd (EnumProcesses api s)) ltac:(lia) Hsmall)
          as (n & Hn & Hfilled & Hcases).
        exists (S n). split; [lia|]. split.
        { intros [|j] Hj.
          - unfold enum_filled, enum_answer. cbn [enum_state].
            rewrite Hok, doubled_0. split; [reflexivity|exact Hfull].
          - unfold enum_filled, enum_answer. cbn [enum_state].
            rewrite doubled_S. apply Hfilled. lia. }
        assert (Hcalls : forall m,
                  [Call (CallEnumProcesses (4 * size))]
                    ++ map (enum_call (size * 2)) (seq 0 m)
                  = map (enum_call size) (seq 0 (S m))).
        { intro m. rewrite map_seq_S. unfold enum_call at 2. rewrite doubled_0.
          cbn [app]. f_equal. apply map_ext. intro j. unfold enum_call.
          rewrite doubled_S. reflexivity. }
        unfold enum_answer in *. cbn [enum_state].
        destruct Hcases as [(Hlt & Hans & Hlen & Hv & Ht)
                           |[(Hlt & Hans & Hv & Ht)|(Heq & Hv & Ht)]].
        -- left. split; [lia|]. split; [exact Hans|].
           split; [rewrite doubled_S; exact Hlen|]. split; [exact Hv|].
           rewrite Ht. apply Hcalls.
        -- right. left. split; [lia|]. split; [exact Hans|]. split; [exact Hv|].
           rewrite Ht, app_assoc, Hcalls. reflexivity.
        -- right. right. split; [lia|]. split; [exact Hv|].
           rewrite Ht. apply Hcalls.
    + (* the call fails *)
      change (negb false) with true. cbv iota.
      exists 0%nat. split; [lia|]. split; [intros j Hj; lia|].
      right. left. split; [lia|]. unfold enum_answer. cbn [enum_state].
      split; [exact Hok|].
      unfold last_error. autorewrite with run.
      split; [reflexivity|].
      cbn [seq map]. unfold enum_call. rewrite doubled_0. reflexivity.
Qed.

Lemma error_output_enum_calls size m :
  error_output (map (enum_call size) (seq 0 m)) = [].
Proof.
  unfold error_output. induction (seq 0 m) as [|j l IH]; [reflexivity|exact IH].
Qed.

Definition too_many_line : Event :=
  CerrAddressOf (L "too many processes to enumerate").

(** The same for [runningProcessesIds] itself. *)
Lemma runningProcessesIds_run s :
  let r := runningProcessesIds api s in
  exists n,
    (n <= 10)%nat
    /\ (forall j, (j < n)%nat -> enum_filled 300 j s)
    /\ ( ((n < 10)%nat
          /\ fst (enum_answer n s) = true
          /\ Z.of_nat (List.length (snd (enum_answer n s))) < doubled 300 n
          /\ val r = snd (enum_answer n s)
          /\ tr r = map (enum_call 300) (seq 0 (S n)))
         \/ ((n < 10)%nat
             /\ fst (enum_answer n s) = false
             /\ val r = []
             /\ tr r = map (enum_call 300) (seq 0 (S n))
                       ++ [Call CallGetLastError;
                           enum_failure_line (GetLastError api (enum_state (S n) s))])
         \/ (n = 10%nat /\ val r = []
             /\ tr r = map (enum_call 300) (seq 0 n) ++ [too_many_line]) ).
Proof.
  intro r.
  destruct (runningProcessesIds_loop_run MaxTries 300 s ltac:(lia)
              ltac:(vm_compute; reflexivity))
    as (n & Hn & Hfilled & Hcases).
  exists n. split; [exact Hn|]. split; [exact Hfilled|].
  subst r. unfold runningProcessesIds. rewrite val_bind, tr_bind.
  fold MaxTries.
  destruct Hcases as [(Hlt & Hans & Hlen & Hv & Ht)
                     |[(Hlt & Hans & Hv & Ht)|(Heq & Hv & Ht)]];
    rewrite Hv, Ht; autorewrite with run.
  - left. rewrite app_nil_r. repeat split; assumption.
  - right. left. rewrite app_nil_r. repeat split; assumption.
  - right. right. repeat split; assumption.
Qed.

(** The number of calls that fill their array is told by the answers. *)
Lemma enum_filled_count size s n m :
  (forall j, (j < n)%nat -> enum_filled size j s) -> ~ enum_filled size n s ->
  (forall j, (j < m)%nat -> enum_filled size j s) ->
  (m <= n)%nat.
Proof.
  intros _ Hn Hm.
  destruct (Nat.le_gt_cases m n) as [|Hlt]; [assumption|].
  exfalso. apply Hn. apply Hm. exact Hlt.
Qed.

(** The outcome of [runningProcessesIds] from the answers of the system:
    after [n] calls that fill their array, the tries are used up, or the next
    call fails, or its identifiers fit. *)
Lemma runningProcessesIds_outcome s n :
  (n <= 10)%nat ->
  (forall j, (j < n)%nat -> enum_filled 300 j s) ->
  let r := runningProcessesIds api s in
  (n = 10%nat -> val r = [] /\ error_output (tr r) = [too_many_line])
  /\ ((n < 10)%nat -> fst (enum_answer n s) = false ->
      val r = []
      /\ error_output (tr r)
         = [enum_failure_line (GetLastError api (enum_state (S n) s))])
  /\ ((n < 10)%nat -> fst (enum_answer n s) = true ->
      Z.of_nat (List.length (snd (enum_answer n s))) < doubled 300 n ->
      val r = snd (enum_answer n s) /\ error_output (tr r) = []).
Proof.
  intros Hn Hfilled r.
  destruct (runningProcessesIds_run s) as (m & Hm & Hmfilled & Hcases).
  fold r in Hcases.
  assert (Hstop : forall k, (k < 10)%nat ->
            fst (enum_answer k s) = false
            \/ Z.of_nat (List.length (snd (enum_answer k s))) < doubled 300 k ->
            ~ enum_filled 300 k s).
  { intros k _ [Hfail|Hfit] [Hok Hfull]; [congruence|lia]. }
  assert (Hsame : (n = 10%nat
                   \/ ((n < 10)%nat /\ ~ enum_filled 300 n s)) ->
                  ((m = 10%nat \/ ((m < 10)%nat /\ ~ enum_filled 300 m s))) ->
                  m = n).
  { intros [Hn10|[Hnlt Hnot]] [Hm10|[Hmlt Hmnot]].
    - lia.
    - exfalso. apply Hmnot. apply Hfilled. lia.
    - exfalso. apply Hnot. apply Hmfilled. lia.
    - pose proof (enum_filled_count 300 s n m Hfilled Hnot Hmfilled).
      pose proof (enum_filled_count 300 s m n Hmfilled Hmnot Hfilled). lia. }
  assert (Hm' : m = 10%nat \/ ((m < 10)%nat /\ ~ enum_filled 300 m s)).
  { destruct Hcases as [(Hlt & Hans & Hlen & _)|[(Hlt & Hans & _)|(Heq & _)]].
    - right. split; [exact Hlt|]. apply Hstop; [exact Hlt|right; exact Hlen].
    - right. split; [exact Hlt|]. apply Hstop; [exact Hlt|left; exact Hans].
    - left. exact Heq. }
  split; [|split].
  - intro Hn10. rewrite <- (Hsame (or_introl Hn10) Hm') in Hn10.
    destruct Hcases as [(Hlt & _)|[(Hlt & _)|(_ & Hv & Ht)]]; try lia.
    rewrite Hv, Ht, error_output_app, error_output_enum_calls. split; reflexivity.
  - intros Hlt Hans.
    assert (Heq : m = n)
      by (apply Hsame; [right; split; [exact Hlt|apply Hstop; auto]|exact Hm']).
    subst m.
    destruct Hcases as [(_ & Hans' & _)|[(_ & _ & Hv & Ht)|(Heq & _)]];
      [congruence| |lia].
    rewrite Hv, Ht, error_output_app, error_output_enum_calls. split; reflexivity.
  - intros Hlt Hans Hlen.
    assert (Heq : m = n)
      by (apply Hsame; [right; split; [exact Hlt|apply Hstop; auto]|exact Hm']).
    subst m.
    destruct Hcases as [(_ & _ & _ & Hv & Ht)|[(_ & Hans' & _)|(Heq & _)]];
      [|congruence|lia].
    rewrite Hv, Ht, error_output_enum_calls. split; reflexivity.
Qed.

End Enumeration.

Lemma firstn_seq (n start len : nat) :
  firstn n (seq start len) = seq start (Nat.min n len).
Proof.
  revert start len. induction n as [|n IH]; intros start [|len]; try reflexivity.
  cbn [seq firstn Nat.min]. f_equal. apply IH.
Qed.

Lemma stored_length {A} (zero : A) (cap limit : nat) (data : list A) :
  (limit <= cap)%nat -> List.length (stored zero cap limit data) = cap.
Proof.
  intro H. unfold stored. rewrite length_app, repeat_length.
  pose proof (firstn_le_length limit data).
  assert (List.length (firstn limit data) <= limit)%nat
    by (rewrite length_firstn; lia).
  lia.
Qed.

Section Naming.

Context {OS : Type}.
Variable api : Platform OS.
Variable process : HANDLE.

(** The query of [processFilename] on a buffer of [size] characters. *)
Definition name_call (size : Z) : Event :=
  Call (if process =? INVALID_HANDLE_VALUE then CallGetModuleFileNameW size
        else CallGetModuleBaseNameW process size).

Definition name_failure_line : Event :=
  Wcerr (L "failed to get filename for "
           ++ (if process =? INVALID_HANDLE_VALUE then L "the current process"
               else L "pid " ++ to_wstring process)
           ++ endl).

Lemma error_output_name_calls size m :
  error_output (map (fun j => name_call (doubled size j)) (seq 0 m)) = [].
Proof.
  unfold error_output. induction (seq 0 m) as [|j l IH]; [reflexivity|exact IH].
Qed.

(** What a run of the loop of [processFilename] comes to: [n] queries find
    the buffer too small, then the next one fits, or it fails, or no try is
    left. *)
Lemma processFilename_loop_run tries :
  forall size s,
    0 < size -> doubled size tries < 2 ^ 32 ->
    let r := processFilename_loop api process tries size s in
    exists n,
      (n <= tries)%nat
      /\ ( ((n < tries)%nat
            /\ (exists text,
                   val r = Some (path_filename api text)
                   /\ 0 < Z.of_nat (List.length text) < doubled size n)
            /\ tr r = map (fun j => name_call (doubled size j)) (seq 0 (S n)))
           \/ ((n < tries)%nat
               /\ val r = None
               /\ exists e,
                    tr r = map (fun j => name_call (doubled size j)) (seq 0 (S n))
                           ++ [Call CallGetLastError;
                               Wcerr (formatSystemMessage api e ++ endl)])
           \/ (n = tries /\ val r = None
               /\ tr r = map (fun j => name_call (doubled size j)) (seq 0 n)) ).
Proof.
  induction tries as [|tries IH]; intros size s Hpos Hsmall r.
  - exists 0%nat. split; [lia|]. right. right. repeat split.
  - assert (Hle := doubled_le (size * 2) tries ltac:(lia)).
    rewrite doubled_S in Hsmall.
    subst r. cbn [processFilename_loop].
    set (q := (if process =? INVALID_HANDLE_VALUE
               then call (CallGetModuleFileNameW size) (GetModuleFileNameW api size)
               else call (CallGetModuleBaseNameW process size)
                         (GetModuleBaseNameW api process size)) s).
    assert (Hq : tr q = [name_call size]).
    { subst q. unfold name_call. destruct (process =? INVALID_HANDLE_VALUE); reflexivity. }
    rewrite val_bind, tr_bind. fold q. rewrite Hq.
    assert (Hw : 0 <= to_DWORD (fst (val q)) < 2 ^ 32)
      by (unfold to_DWORD; apply Z.mod_pos_bound; reflexivity).
    set (w := to_DWORD (fst (val q))) in *.
    assert (Hcalls : forall m,
              [name_call size]
                ++ map (fun j => name_call (doubled (size * 2) j)) (seq 0 m)
              = map (fun j => name_call (doubled size j)) (seq 0 (S m))).
    { intro m. rewrite map_seq_S, doubled_0. cbn [app]. f_equal.
      apply map_ext. intro j. rewrite doubled_S. reflexivity. }
    destruct (w =? 0) eqn:Hzero.
    + (* the query fails *)
      exists 0%nat. split; [lia|]. right. left. split; [lia|].
      unfold last_error. autorewrite with run. split; [reflexivity|].
      exists (GetLastError api (st q)).
      cbn [seq map]. rewrite doubled_0. reflexivity.
    + apply Z.eqb_neq in Hzero.
      destruct (w >=? size) eqn:Hbig.
      * (* the buffer is too small *)
        assert (Hsize : to_DWORD (size * 2) = size * 2)
          by (unfold to_DWORD; rewrite Z.mod_small; lia).
        rewrite Hsize.
        destruct (IH (size * 2) (st q) ltac:(lia) Hsmall) as (n & Hn & Hcases).
        exists (S n). split; [lia|].
        destruct Hcases as [(Hlt & (text & Hv & Hlen) & Ht)
                           |[(Hlt & Hv & e & Ht)|(Heq & Hv & Ht)]].
        -- left. split; [lia|]. split.
           ++ exists text. split; [exact Hv|]. rewrite doubled_S. exact Hlen.
           ++ rewrite Ht. apply Hcalls.
        -- right. left. split; [lia|]. split; [exact Hv|].
           exists e. rewrite Ht, app_assoc, Hcalls. reflexivity.
        -- right. right. split; [lia|]. split; [exact Hv|].
           rewrite Ht. apply Hcalls.
      * (* the name fits *)
        assert (Hfit : w < size) by (rewrite Z.geb_leb in Hbig; apply Z.leb_gt; exact Hbig).
        exists 0%nat. split; [lia|]. left. split; [lia|].
        autorewrite with run. split.
        -- eexists. split; [reflexivity|].
           assert (Hcap : to_DWORD (size + 1) = size + 1)
             by (unfold to_DWORD; rewrite Z.mod_small; lia).
           rewrite Hcap, doubled_0, length_firstn, stored_length by lia.
           lia.
        -- cbn [seq map]. rewrite doubled_0. reflexivity.
Qed.

(** The same for [processFilename] itself. *)
Lemma processFilename_run s :
  let r := processFilename api process s in
  exists n,
    (n <= 10)%nat
    /\ ( ((n < 10)%nat
          /\ (exists text,
                 val r = path_filename api text
                 /\ 0 < Z.of_nat (List.length text) < doubled MAX_PATH n)
          /\ tr r = map (fun j => name_call (doubled MAX_PATH j)) (seq 0 (S n)))
         \/ ((n < 10)%nat
             /\ val r = []
             /\ exists e,
                  tr r = map (fun j => name_call (doubled MAX_PATH j)) (seq 0 (S n))
                         ++ [Call CallGetLastError;
                             Wcerr (formatSystemMessage api e ++ endl);
                             name_failure_line])
         \/ (n = 10%nat /\ val r = []
             /\ tr r = map (fun j => name_call (doubled MAX_PATH j)) (seq 0 n)
                       ++ [name_failure_line]) ).
Proof.
  intro r.
  destruct (processFilename_loop_run MaxTries MAX_PATH s ltac:(reflexivity)
              ltac:(vm_compute; reflexivity))
    as (n & Hn & Hcases).
  exists n. split; [exact Hn|].
  subst r. unfold processFilename. rewrite val_bind, tr_bind.
  fold MaxTries.
  destruct Hcases as [(Hlt & (text & Hv & Hlen) & Ht)
                     |[(Hlt & Hv & e & Ht)|(Heq & Hv & Ht)]];
    rewrite Hv, Ht; autorewrite with run.
  - left. rewrite app_nil_r. split; [exact Hlt|]. split; [|reflexivity].
    exists text. split; [reflexivity|exact Hlen].
  - right. left. split; [exact Hlt|]. split; [reflexivity|].
    exists e. rewrite <- app_assoc. reflexivity.
  - right. right. repeat split; assumption.
Qed.

End Naming.

(** ** Outcomes of the growing-buffer queries *)

(** The capacity, in elements, a growing-buffer query is given. *)
Definition call_capacity (e : Event) : list Z :=
  match e with
  | Call (CallEnumProcesses cb) => [cb / 4]
  | Call (CallGetModuleFileNameW nSize) => [nSize]
  | Call (CallGetModuleBaseNameW _ nSize) => [nSize]
  | _ => []
  end.

Definition capacities (t : list Event) : list Z := flat_map call_capacity t.

(** The claimed outcomes of a growing-buffer query that was given the
    capacities [caps], wrote [errors] and returned [count] elements: it
    succeeds with fewer elements than the last capacity, or it reports a
    failure after exactly ten attempts. *)
Definition growth_claimed (caps : list Z) (errors : list Event) (count : Z) : Prop :=
  (errors = [] /\ count < last caps 0)
  \/ (errors <> [] /\ List.length caps = 10%nat).

(** The enumeration fails for good: some call reports a failure after the
    calls before it filled their array, or all ten calls fill their array. *)
Definition enumeration_fails {OS} (api : Platform OS) (s : OS) : Prop :=
  (exists n, (n < 10)%nat
             /\ (forall j, (j < n)%nat -> enum_filled api 300 j s)
             /\ fst (enum_answer api n s) = false)
  \/ (forall j, (j < 10)%nat -> enum_filled api 300 j s).

(** A system that refuses to enumerate its processes. *)
Definition refusing_state : Sim.State :=
  Sim.mkState 10 Sim.mo
    [Sim.mkProc 10 (L "ModOrganizer.exe") 0; Sim.mkProc 20 (L "ModOrganizer.exe") 0]
    ERROR_ACCESS_DENIED [] [] (L "C:\Temp\") Sim.noon 0.

(** A system with as many processes as the largest array holds. *)
Definition crowded_state : Sim.State :=
  Sim.mkState 10 Sim.mo
    (repeat (Sim.mkProc 4 (L "System") ERROR_ACCESS_DENIED) 153600)
    0 [] [] (L "C:\Temp\") Sim.noon 0.

Lemma capacities_app (t u : list Event) :
  capacities (t ++ u) = capacities t ++ capacities u.
Proof. unfold capacities. apply flat_map_app. Qed.

Lemma capacities_enum_calls size m :
  capacities (map (enum_call size) (seq 0 m)) = map (doubled size) (seq 0 m).
Proof.
  unfold capacities. induction (seq 0 m) as [|j l IH]; [reflexivity|].
  cbn [map flat_map]. rewrite IH. unfold enum_call at 1. cbn [call_capacity app].
  rewrite Z.mul_comm, Z.div_mul by lia. reflexivity.
Qed.

Lemma capacities_name_calls process size m :
  capacities (map (fun j => name_call process (doubled size j)) (seq 0 m))
  = map (doubled size) (seq 0 m).
Proof.
  unfold capacities. induction (seq 0 m) as [|j l IH]; [reflexivity|].
  cbn [map flat_map]. rewrite IH. unfold name_call at 1.
  destruct (process =? INVALID_HANDLE_VALUE); reflexivity.
Qed.

(** C3 as claimed fails: when the system refuses the first enumeration, the
    query reports a failure after one attempt, not ten. *)
Lemma growth_fails_before_ten_attempts :
  let r := runningProcessesIds Sim.platform refusing_state in
  capacities (tr r) = [300]
  /\ error_output (tr r)
     = [enum_failure_line Sim.platform ERROR_ACCESS_DENIED]
  /\ ~ growth_claimed (capacities (tr r)) (error_output (tr r))
         (Z.of_nat (List.length (val r))).
Proof.
  split; [vm_compute; reflexivity|]. split; [vm_compute; reflexivity|].
  intros [[Herr _]|[_ Hten]].
  - vm_compute in Herr. discriminate.
  - vm_compute in Hten. discriminate.
Qed.

(** C4, amended: [runningProcessesIds] returns nothing and reports an error
    when a call of the enumeration reports a failure, and also when all ten
    calls fill their array; a call that fills its array is tried again with
    a larger one and is no failure by itself; in every other case the result
    is the whole list of identifiers the system reported to the last call,
    and no error is reported. *)
Theorem runningProcessesIds_fails_or_returns_all :
  forall {OS} (api : Platform OS) s n,
    (n <= 10)%nat ->
    (forall j, (j < n)%nat -> enum_filled api 300 j s) ->
    let r := runningProcessesIds api s in
    (n = 10%nat -> val r = [] /\ error_output (tr r) = [too_many_line])
    /\ ((n < 10)%nat -> fst (enum_answer api n s) = false ->
        val r = []
        /\ error_output (tr r)
           = [enum_failure_line api (GetLastError api (enum_state api (S n) s))])
    /\ ((n < 10)%nat -> fst (enum_answer api n s) = true ->
        Z.of_nat (List.length (snd (enum_answer api n s))) < doubled 300 n ->
        val r = snd (enum_answer api n s) /\ error_output (tr r) = []).
Proof.
  intros OS api s n Hn Hfilled. exact (runningProcessesIds_outcome api s n Hn Hfilled).
Qed.

Lemma runningProcessesIds_fails_or_returns_all_witness :
  val (runningProcessesIds Sim.platform siblings_state) = [0; 4; 10; 30; 20]
  /\ error_output (tr (runningProcessesIds Sim.platform siblings_state)) = [].
Proof.
  refine (proj2 (proj2 (runningProcessesIds_fails_or_returns_all Sim.platform
                          siblings_state 0 _ _)) _ _ _).
  - lia.
  - intros j Hj. lia.
  - lia.
  - reflexivity.
  - vm_compute. reflexivity.
Defined.

Lemma crowded_enum_state k : enum_state Sim.platform k crowded_state = crowded_state.
Proof. induction k as [|k IH]; [reflexivity|exact IH]. Qed.

(** C4 as claimed fails: on a system with as many processes as the largest
    array holds, no call of the enumeration reports a failure, and
    [runningProcessesIds] still returns nothing and reports an error. *)
Lemma runningProcessesIds_fails_without_hard_failure :
  (forall k, fst (enum_answer Sim.platform k crowded_state) = true)
  /\ val (runningProcessesIds Sim.platform crowded_state) = []
  /\ error_output (tr (runningProcessesIds Sim.platform crowded_state))
     = [too_many_line].
Proof.
  split; [|split].
  - intro k. unfold enum_answer. rewrite crowded_enum_state. reflexivity.
  - vm_compute. reflexivity.
  - vm_compute. reflexivity.
Qed.

(** ** A failed enumeration looks like the absence of a sibling *)

Lemma runningProcessesIds_of_failure {OS} (api : Platform OS) s :
  enumeration_fails api s -> val (runningProcessesIds api s) = [].
Proof.
  intros [(n & Hn & Hfilled & Hfail)|Hall].
  - exact (proj1 (proj1 (proj2 (runningProcessesIds_outcome api s n
                                  ltac:(lia) Hfilled)) Hn Hfail)).
  - exact (proj1 (proj1 (runningProcessesIds_outcome api s 10
                           ltac:(lia) Hall) eq_refl)).
Qed.

Lemma lonely_enum_state k : enum_state Sim.platform k capture_state = capture_state.
Proof. induction k as [|k IH]; [reflexivity|exact IH]. Qed.

(** C10: when the enumeration fails for good, by a call that reports a
    failure or by ten calls that fill their array, [runningProcesses] has no
    record and [findOtherPid] returns zero; and zero is also what it returns
    on a system whose enumeration works and where no other instance runs. *)
Theorem findOtherPid_zero_on_failed_enumeration :
  (forall {OS} (api : Platform OS) s,
      let own := processFilename api INVALID_HANDLE_VALUE s in
      enumeration_fails api (st own) ->
      val (runningProcesses api (st own)) = []
      /\ val (findOtherPid api s) = 0)
  /\ (~ enumeration_fails Sim.platform
          (st (processFilename Sim.platform INVALID_HANDLE_VALUE capture_state))
      /\ val (findOtherPid Sim.platform capture_state) = 0).
Proof.
  split.
  - intros OS api s own Hfails.
    assert (Hnone : val (runningProcesses api (st own)) = []).
    { unfold runningProcesses. rewrite val_bind.
      rewrite (runningProcessesIds_of_failure api _ Hfails). reflexivity. }
    split; [exact Hnone|].
    pose proof (findOtherPid_val api s) as Hval. cbv zeta in Hval.
    fold own in Hval. rewrite Hval, Hnone. reflexivity.
  - split; [|vm_compute; reflexivity].
    change (st (processFilename Sim.platform INVALID_HANDLE_VALUE capture_state))
      with capture_state.
    intros [(n & _ & _ & Hfail)|Hall].
    + unfold enum_answer in Hfail. rewrite lonely_enum_state in Hfail.
      discriminate Hfail.
    + destruct (Hall 0%nat ltac:(lia)) as [_ Hfull].
      vm_compute in Hfull. apply Hfull. reflexivity.
Qed.

Lemma findOtherPid_zero_on_failed_enumeration_witness :
  val (findOtherPid Sim.platform refusing_state) = 0.
Proof.
  refine (proj2 (proj1 findOtherPid_zero_on_failed_enumeration
                   Sim.State Sim.platform refusing_state _)).
  left. exists 0%nat. split; [lia|]. split; [intros j Hj; lia|].
  reflexivity.
Defined.

(** ** The dump-file allocator *)

(** The paths of the files a run tried to create. *)
Definition attempts (t : list Event) : list wstring :=
  flat_map (fun e => match e with Call (CallCreateFileW path) => [path] | _ => [] end) t.

(** Attempt [k] (from zero) in a directory: the name without a counter, then
    with [-1], [-2] and so on before the extension. *)
Definition attempt_path (dir prefix : wstring) (k : nat) : wstring :=
  dir ++ L "\" ++ prefix
      ++ match k with
         | O => dump_ext
         | S _ => L "-" ++ to_wstring (Z.of_nat k) ++ dump_ext
         end.

Lemma attempts_app (t u : list Event) : attempts (t ++ u) = attempts t ++ attempts u.
Proof. unfold attempts. apply flat_map_app. Qed.

Section Allocation.

Context {OS : Type}.
Variable api : Platform OS.

(** The creation of [path] in state [s] fails because the file exists. *)
Definition collides (path : wstring) (s : OS) : Prop :=
  fst (CreateFileW api path s) = INVALID_HANDLE_VALUE
  /\ GetLastError api (snd (CreateFileW api path s)) = ERROR_FILE_EXISTS.

(** The state of the system before attempt [i + k] of a series of creations
    that is at attempt [i] in state [s]. *)
Fixpoint create_state (path : nat -> wstring) (i k : nat) (s : OS) : OS :=
  match k with
  | O => s
  | S k' => create_state path (S i) k' (snd (CreateFileW api (path i) s))
  end.

Definition create_failure_line (e : DWORD) : Event :=
  Wcerr (L "failed to create dump file, " ++ formatSystemMessage api e ++ endl).

(** What a run of the loop of [tempFile] comes to: [m] attempts collide with
    an existing file, then the next one creates the file, or it fails
    otherwise, or no attempt is left. *)
Lemma tempFile_loop_run dir prefix n :
  forall i s,
    let path := attempt_path dir prefix in
    let r := tempFile_loop api dir prefix n (Z.of_nat i) (path i) s in
    exists m,
      (m <= n)%nat
      /\ (forall j, (j < m)%nat -> collides (path (i + j)%nat) (create_state path i j s))
      /\ attempts (tr r) = map path (seq i (if m <? n then S m else m)%nat)
      /\ ( ((m < n)%nat
            /\ fst (CreateFileW api (path (i + m)%nat) (create_state path i m s))
               <> INVALID_HANDLE_VALUE
            /\ val r = Some (fst (CreateFileW api (path (i + m)%nat)
                                    (create_state path i m s)))
            /\ error_output (tr r) = [])
           \/ ((m < n)%nat
               /\ ~ collides (path (i + m)%nat) (create_state path i m s)
               /\ val r = Some HandlePtr_empty
               /\ exists e, error_output (tr r) = [create_failure_line e])
           \/ (m = n /\ val r = None /\ error_output (tr r) = []) ).
Proof.
  induction n as [|n IH]; intros i s path r.
  - exists 0%nat. split; [lia|]. split; [intros j Hj; lia|].
    split; [reflexivity|]. right. right. repeat split.
  - subst r. cbn [tempFile_loop]. unfold last_error.
    autorewrite with run. unfold HandlePtr_get.
    fold (path i).
    destruct (fst (CreateFileW api (path i) s) =? INVALID_HANDLE_VALUE) eqn:Hbad;
      cbn [negb]; cbv iota.
    + apply Z.eqb_eq in Hbad. autorewrite with run.
      destruct (GetLastError api (snd (CreateFileW api (path i) s)) =? ERROR_FILE_EXISTS)
        eqn:Hexists; cbn [negb]; cbv iota.
      * (* the file exists *)
        apply Z.eqb_eq in Hexists.
        assert (Hnext : dir ++ L "\" ++ prefix ++ L "-" ++ to_wstring (Z.of_nat i + 1)
                            ++ dump_ext = path (S i)).
        { subst path. unfold attempt_path.
          replace (Z.of_nat i + 1) with (Z.of_nat (S i)) by lia. reflexivity. }
        rewrite Hnext.
        replace (Z.of_nat i + 1) with (Z.of_nat (S i)) by lia.
        destruct (IH (S i) (snd (CreateFileW api (path i) s)))
          as (m & Hm & Hcollide & Hatt & Hcases).
        fold path in Hcollide, Hatt, Hcases.
        exists (S m). split; [lia|]. split.
        { intros [|j] Hj; cbn [create_state].
          - rewrite Nat.add_0_r. split; assumption.
          - replace (i + S j)%nat with (S i + j)%nat by lia. apply Hcollide. lia. }
        replace (i + S m)%nat with (S i + m)%nat by lia. cbn [create_state].
        split.
        { rewrite !attempts_app, Hatt. cbn [attempts flat_map app].
          replace (S m <? S n)%nat with (m <? n)%nat by reflexivity.
          destruct (m <? n)%nat; reflexivity. }
        rewrite !error_output_app. cbn [error_output filter is_error_output app].
        fold (error_output (tr (tempFile_loop api dir prefix n (Z.of_nat (S i))
                                  (path (S i)) (snd (CreateFileW api (path i) s))))).
        destruct Hcases as [(Hlt & Hok & Hv & He)
                           |[(Hlt & Hno & Hv & He)|(Heq & Hv & He)]].
        -- left. split; [lia|]. repeat split; assumption.
        -- right. left. split; [lia|]. repeat split; assumption.
        -- right. right. split; [lia|]. repeat split; assumption.
      * (* the creation fails otherwise *)
        apply Z.eqb_neq in Hexists.
        exists 0%nat. split; [lia|]. split; [intros j Hj; lia|].
        rewrite Nat.add_0_r. cbn [create_state]. split; [reflexivity|].
        right. left. split; [lia|]. split; [intros [_ H]; contradiction|].
        autorewrite with run. split; [reflexivity|].
        eexists. reflexivity.
    + (* the file is created *)
      apply Z.eqb_neq in Hbad.
      exists 0%nat. split; [lia|]. split; [intros j Hj; lia|].
      rewrite Nat.add_0_r. cbn [create_state]. split; [reflexivity|].
      left. split; [lia|]. autorewrite with run. repeat split. exact Hbad.
Qed.

End Allocation.

(** *** The names tried *)

(** A decimal digit, and a number in two and in four digits with leading
    zeros. *)
Definition digit (d : Z) : wchar_t := Z.to_N (48 + d).

Definition two_digits (n : Z) : wstring := [digit (n / 10); digit (n mod 10)].

Definition four_digits (n : Z) : wstring :=
  [digit (n / 1000); digit (n / 100 mod 10); digit (n / 10 mod 10); digit (n mod 10)].

(** [YYYYMMDDThhmmss] of a broken-down time. *)
Definition dump_stamp (t : tm) : wstring :=
  four_digits (1900 + tm_year t) ++ two_digits (tm_mon t + 1)
    ++ two_digits (tm_mday t) ++ L "T"
    ++ two_digits (tm_hour t) ++ two_digits (tm_min t) ++ two_digits (tm_sec t).

(** The name of attempt [k]: [ModOrganizer-YYYYMMDDThhmmss.dmp], with [-k]
    before the extension from the second attempt on. *)
Definition dump_name (t : tm) (k : nat) : wstring :=
  L "ModOrganizer-" ++ dump_stamp t
    ++ match k with
       | O => L ".dmp"
       | S _ => L "-" ++ to_wstring (Z.of_nat k) ++ L ".dmp"
       end.

(** A broken-down time of the calendar, in a year of four digits. *)
Definition civil (t : tm) : Prop :=
  1000 <= 1900 + tm_year t <= 9999
  /\ 0 <= tm_mon t <= 11 /\ 1 <= tm_mday t <= 31
  /\ 0 <= tm_hour t <= 23 /\ 0 <= tm_min t <= 59 /\ 0 <= tm_sec t <= 60.

(** The integers from [start], [count] of them. *)
Fixpoint zrange (start : Z) (count : nat) : list Z :=
  match count with
  | O => []
  | S count' => start :: zrange (start + 1) count'
  end.

Lemma in_zrange (z start : Z) (count : nat) :
  start <= z < start + Z.of_nat count -> In z (zrange start count).
Proof.
  revert start. induction count as [|count IH]; intros start Hz; [lia|].
  cbn [zrange]. destruct (Z.eq_dec start z) as [->|Hne]; [left; reflexivity|].
  right. apply IH. lia.
Qed.

Lemma setw_two_digits (n : Z) :
  0 <= n < 100 -> setw 2 zero_digit (to_wstring n) = two_digits n.
Proof.
  intro Hn.
  assert (Hall : forallb (fun k => wstring_eqb (setw 2 zero_digit (to_wstring k))
                                               (two_digits k))
                         (zrange 0 100) = true) by (vm_compute; reflexivity).
  rewrite forallb_forall in Hall.
  apply wstring_eqb_eq. apply Hall. apply in_zrange. lia.
Qed.

Lemma setw_four_digits (n : Z) :
  1000 <= n <= 9999 -> setw 4 space (to_wstring n) = four_digits n.
Proof.
  intro Hn.
  assert (Hall : forallb (fun k => wstring_eqb (setw 4 space (to_wstring k))
                                               (four_digits k))
                         (zrange 1000 (Z.to_nat 9000)) = true)
    by (vm_compute; reflexivity).
  rewrite forallb_forall in Hall.
  apply wstring_eqb_eq. apply Hall. apply in_zrange. lia.
Qed.

Lemma dump_prefix_stamp (t : tm) :
  civil t -> dump_prefix t = L "ModOrganizer-" ++ dump_stamp t.
Proof.
  intros (Hy & Hm & Hd & Hh & Hmin & Hs).
  unfold dump_prefix, dump_stamp.
  rewrite setw_four_digits by lia.
  rewrite !setw_two_digits by lia.
  reflexivity.
Qed.

Lemma attempt_path_name dir (t : tm) (k : nat) :
  civil t -> attempt_path dir (dump_prefix t) k = dir ++ L "\" ++ dump_name t k.
Proof.
  intro Ht. unfold attempt_path, dump_name.
  rewrite (dump_prefix_stamp t Ht), <- !app_assoc. reflexivity.
Qed.

Section Names.

Context {OS : Type}.
Variable api : Platform OS.

Lemma create_state_ext (p q : nat -> wstring) :
  (forall k, p k = q k) ->
  forall k i s, create_state api p i k s = create_state api q i k s.
Proof.
  intros Hpq k. induction k as [|k IH]; intros i s; cbn [create_state];
    [reflexivity|].
  rewrite Hpq. apply IH.
Qed.

Definition out_of_names_line : Event :=
  Wcerr (L "can't create dump file, ran out of filenames" ++ endl).

(** The same for [tempFile] itself. *)
Lemma tempFile_run dir s :
  let t := gmtime api (fst (time api s)) in
  let path := attempt_path dir (dump_prefix t) in
  let state := fun k => create_state api path 0 k (snd (time api s)) in
  let r := tempFile api dir s in
  exists m,
    (m <= 100)%nat
    /\ (forall j, (j < m)%nat -> collides api (path j) (state j))
    /\ attempts (tr r) = map path (seq 0 (if m <? 100 then S m else m)%nat)
    /\ ( ((m < 100)%nat
          /\ fst (CreateFileW api (path m) (state m)) <> INVALID_HANDLE_VALUE
          /\ val r = fst (CreateFileW api (path m) (state m))
          /\ error_output (tr r) = [])
         \/ ((m < 100)%nat
             /\ ~ collides api (path m) (state m)
             /\ val r = HandlePtr_empty
             /\ exists e, error_output (tr r) = [create_failure_line api e])
         \/ (m = 100%nat /\ val r = HandlePtr_empty
             /\ error_output (tr r) = [out_of_names_line]) ).
Proof.
  intros t path state r.
  destruct (tempFile_loop_run api dir (dump_prefix t) MaxNames 0 (snd (time api s)))
    as (m & Hm & Hcollide & Hatt & Hcases).
  fold path in Hcollide, Hatt, Hcases.
  exists m. split; [exact Hm|]. split; [exact Hcollide|].
  subst r. unfold tempFile. autorewrite with run. fold t. fold path.
  change (dir ++ L "\" ++ dump_prefix t ++ dump_ext) with (path 0%nat).
  change 0 with (Z.of_nat 0).
  rewrite !attempts_app, !error_output_app, Hatt.
  cbn [attempts flat_map error_output filter is_error_output app].
  fold (error_output (tr (tempFile_loop api dir (dump_prefix t) MaxNames
                            (Z.of_nat 0) (path 0%nat) (snd (time api s))))).
  change (0 + m)%nat with m in Hcases.
  destruct Hcases as [(Hlt & Hok & Hv & He)|[(Hlt & Hno & Hv & He)|(Heq & Hv & He)]];
    rewrite Hv; autorewrite with run.
  - split; [rewrite app_nil_r; reflexivity|]. left.
    rewrite He. repeat split; assumption.
  - split; [rewrite app_nil_r; reflexivity|]. right. left.
    destruct He as (e & He). rewrite He.
    split; [exact Hlt|]. split; [exact Hno|]. split; [reflexivity|].
    exists e. reflexivity.
  - split; [rewrite app_nil_r; reflexivity|]. right. right.
    rewrite He. repeat split. exact Heq.
Qed.

End Names.

(** C5: the time [2024-01-15T12:00:00] gives the name
    [ModOrganizer-20240115T120000.dmp] and, for the second attempt,
    [ModOrganizer-20240115T120000-1.dmp].  For any time of the calendar,
    [tempFile] first tries the name without a counter; as long as the
    attempts collide with existing files, the next attempt is the name with
    the next counter, [-1], [-2] and so on; and after one hundred collisions
    it gives up on the directory: it returns the empty handle, having tried
    the hundred names and reported that it ran out of filenames. *)
Theorem tempFile_names_and_collisions :
  (dump_name (mkTm 124 0 15 12 0 0) 0 = L "ModOrganizer-20240115T120000.dmp"
   /\ dump_name (mkTm 124 0 15 12 0 0) 1 = L "ModOrganizer-20240115T120000-1.dmp")
  /\ forall {OS} (api : Platform OS) dir s,
      let t := gmtime api (fst (time api s)) in
      let path := fun k => dir ++ L "\" ++ dump_name t k in
      let r := tempFile api dir s in
      civil t ->
      forall k,
        (k <= 100)%nat ->
        (forall j, (j < k)%nat ->
                   collides api (path j)
                     (create_state api path 0 j (snd (time api s)))) ->
        firstn (S k) (attempts (tr r)) = map path (seq 0 (Nat.min (S k) 100))
        /\ (k = 100%nat ->
            val r = HandlePtr_empty
            /\ attempts (tr r) = map path (seq 0 100)
            /\ error_output (tr r) = [out_of_names_line]).
Proof.
  split; [split; vm_compute; reflexivity|].
  intros OS api dir s t path r Ht k Hk Hcollide.
  destruct (tempFile_run api dir s) as (m & Hm & _ & Hatt & Hcases).
  fold t in Hatt, Hcases. fold r in Hatt, Hcases.
  assert (Hpath : forall j, attempt_path dir (dump_prefix t) j = path j)
    by (intro j; apply attempt_path_name; exact Ht).
  rewrite (map_ext _ _ Hpath) in Hatt.
  assert (Hstate : forall j,
            create_state api (attempt_path dir (dump_prefix t)) 0 j (snd (time api s))
            = create_state api path 0 j (snd (time api s)))
    by (intro j; apply create_state_ext; exact Hpath).
  rewrite Hpath, Hstate in Hcases.
  assert (Hkm : (k <= m)%nat).
  { destruct (Nat.le_gt_cases k m) as [|Hlt]; [assumption|]. exfalso.
    specialize (Hcollide m Hlt).
    destruct Hcases as [(_ & Hok & _)|[(_ & Hno & _)|(Heq & _)]].
    - apply Hok. exact (proj1 Hcollide).
    - apply Hno. exact Hcollide.
    - lia. }
  split.
  - rewrite Hatt, firstn_map, firstn_seq. f_equal. f_equal.
    destruct (m <? 100)%nat eqn:Hlt.
    + apply Nat.ltb_lt in Hlt. lia.
    + apply Nat.ltb_ge in Hlt. lia.
  - intro Hall.
    destruct Hcases as [(Hlt & _)|[(Hlt & _)|(Heq & Hv & He)]]; try lia.
    split; [exact Hv|]. split; [|exact He].
    rewrite Hatt, Heq. reflexivity.
Qed.

(** A directory in which the names of noon, 15 January 2024, without a
    counter and with the counter 1 are taken. *)
Definition taken_state : Sim.State :=
  Sim.mkState 10 Sim.mo [Sim.mkProc 10 (L "ModOrganizer.exe") 0] 0
    [L ".\ModOrganizer-20240115T120000.dmp";
     L ".\ModOrganizer-20240115T120000-1.dmp"]
    [] (L "C:\Temp\") Sim.noon 0.

Lemma tempFile_names_and_collisions_witness :
  attempts (tr (tempFile Sim.platform (L ".") taken_state))
  = [L ".\ModOrganizer-20240115T120000.dmp";
     L ".\ModOrganizer-20240115T120000-1.dmp";
     L ".\ModOrganizer-20240115T120000-2.dmp"].
Proof.
  assert (Hcivil : civil (gmtime Sim.platform (fst (time Sim.platform taken_state))))
    by (vm_compute; repeat split; discriminate).
  assert (Hcollide : forall j, (j < 2)%nat ->
            collides Sim.platform
              (L "." ++ L "\" ++ dump_name (gmtime Sim.platform
                                             (fst (time Sim.platform taken_state))) j)
              (create_state Sim.platform
                 (fun k => L "." ++ L "\"
                           ++ dump_name (gmtime Sim.platform
                                           (fst (time Sim.platform taken_state))) k)
                 0 j (snd (time Sim.platform taken_state)))).
  { intros [|[|j]] Hj; [split; vm_compute; reflexivity
                       |split; vm_compute; reflexivity|lia]. }
  pose proof (proj1 (proj2 tempFile_names_and_collisions Sim.State Sim.platform
                       (L ".") taken_state Hcivil 2%nat ltac:(lia) Hcollide)) as H.
  vm_compute in H. vm_compute. exact H.
Defined.

(** *** The fallback *)

(** A system whose working directory cannot be written, and whose temporary
    directory can. *)
Definition protected_state : Sim.State :=
  Sim.mkState 10 Sim.mo [Sim.mkProc 10 (L "ModOrganizer.exe") 0] 0
    [] [L "."] (L "C:\Temp\") Sim.noon 0.

Lemma tempFile_not_invalid {OS} (api : Platform OS) dir s :
  HandlePtr_get (val (tempFile api dir s)) <> INVALID_HANDLE_VALUE.
Proof.
  destruct (tempFile_run api dir s) as (m & _ & _ & _ & Hcases).
  destruct Hcases as [(_ & Hok & Hv & _)|[(_ & _ & Hv & _)|(_ & Hv & _)]];
    rewrite Hv; [exact Hok|discriminate|discriminate].
Qed.

(** Whatever the system does, [dumpFile] is [tempFile] on the working
    directory: what [tempFile] returns is never [INVALID_HANDLE_VALUE], the
    only value for which [dumpFile] goes on to the temporary directory. *)
Lemma dumpFile_is_tempFile_here {OS} (api : Platform OS) s :
  val (dumpFile api s) = val (tempFile api (L ".") s)
  /\ st (dumpFile api s) = st (tempFile api (L ".") s)
  /\ tr (dumpFile api s) = tr (tempFile api (L ".") s).
Proof.
  pose proof (tempFile_not_invalid api (L ".") s) as Hok.
  apply Z.eqb_neq in Hok.
  unfold dumpFile. rewrite val_bind, st_bind, tr_bind, Hok.
  cbn [negb]. cbv iota. autorewrite with run.
  rewrite app_nil_r. repeat split.
Qed.

(** C1, on a system whose working directory cannot be written: [dumpFile]
    returns the empty handle after a single attempt in the working
    directory; it never asks for the temporary directory and tries no file
    there, although the creation there would have given a valid handle. *)
Theorem dumpFile_gives_up_without_fallback :
  let r := dumpFile Sim.platform protected_state in
  let fallback := tempFile Sim.platform (L "C:\Temp\") (st r) in
  val r = HandlePtr_empty
  /\ attempts (tr r) = [L ".\ModOrganizer-20240115T120000.dmp"]
  /\ (forall n, ~ In (Call (CallGetTempPathW n)) (tr r))
  /\ HandlePtr_bool (val fallback) = true
  /\ HandlePtr_get (val fallback) <> INVALID_HANDLE_VALUE
  /\ attempts (tr fallback) = [L "C:\Temp\\ModOrganizer-20240115T120000.dmp"].
Proof.
  repeat split; try (vm_compute; reflexivity).
  - intros n Hin. vm_compute in Hin.
    repeat (destruct Hin as [Hin|Hin]; [discriminate Hin|]). exact Hin.
  - vm_compute. discriminate.
Qed.

(** *** Runs on the simulated system *)

Lemma runningProcesses_skips_zero_witness :
  Forall (fun p => pid p <> 0) (val (runningProcesses Sim.platform siblings_state))
  /\ val (runningProcessesIds Sim.platform siblings_state) = [0; 4; 10; 30; 20].
Proof.
  split.
  - exact (proj1 (runningProcesses_skips_zero Sim.platform siblings_state)).
  - vm_compute. reflexivity.
Defined.

Lemma coredumpOther_capture_or_not_witness :
  val (coredumpOther Sim.platform Full capture_state) = false
  /\ no_capture (tr (coredumpOther Sim.platform Full capture_state))
  /\ val (coredumpOther Sim.platform Full siblings_state)
     = val (createMiniDump Sim.platform (Sim.process_handle 30) Full siblings_state).
Proof.
  split; [|split].
  - refine (proj1 (proj1 (coredumpOther_capture_or_not Sim.platform Full
                            capture_state) _)).
    left. vm_compute. reflexivity.
  - refine (proj2 (proj1 (coredumpOther_capture_or_not Sim.platform Full
                            capture_state) _)).
    left. vm_compute. reflexivity.
  - refine (proj1 (proj1 (proj2 (coredumpOther_capture_or_not Sim.platform Full
                                   siblings_state)) _ _)).
    + vm_compute. discriminate.
    + vm_compute. discriminate.
Defined.

(** * Further properties of the code *)

(** ** [processFilename] from the answers of the system *)

Section NameAnswers.

Context {OS : Type}.
Variable api : Platform OS.
Variable process : HANDLE.

(** The query [processFilename] makes on a buffer of [size] characters:
    about the running image for [INVALID_HANDLE_VALUE], about the process
    behind the handle otherwise. *)
Definition name_query (size : DWORD) : OS -> (DWORD * wstring) * OS :=
  if process =? INVALID_HANDLE_VALUE then GetModuleFileNameW api size
  else GetModuleBaseNameW api process size.

(** The state of the system before query [k] (from zero) of a series started
    in [s] on [size] characters, the length that query returns and the
    characters it stores. *)
Fixpoint name_state (size : Z) (k : nat) (s : OS) : OS :=
  match k with
  | O => s
  | S k' => name_state (size * 2) k' (snd (name_query size s))
  end.

Definition name_written (size : Z) (k : nat) (s : OS) : DWORD :=
  to_DWORD (fst (fst (name_query (doubled size k) (name_state size k s)))).

Definition name_stored (size : Z) (k : nat) (s : OS) : wstring :=
  snd (fst (name_query (doubled size k) (name_state size k s))).

(** Query [k] returns a length that does not leave room in the buffer. *)
Definition name_too_small (size : Z) (k : nat) (s : OS) : Prop :=
  doubled size k <= name_written size k s.

Lemma name_query_run size s :
  let q := (if process =? INVALID_HANDLE_VALUE
            then call (CallGetModuleFileNameW size) (GetModuleFileNameW api size)
            else call (CallGetModuleBaseNameW process size)
                      (GetModuleBaseNameW api process size)) s in
  val q = fst (name_query size s) /\ st q = snd (name_query size s)
  /\ tr q = [name_call process size].
Proof.
  unfold name_query, name_call.
  destruct (process =? INVALID_HANDLE_VALUE); repeat split.
Qed.

(** One turn of the loop on a buffer that is too small. *)
Lemma processFilename_loop_grow tries size s :
  0 < size -> size * 2 < 2 ^ 32 ->
  size <= to_DWORD (fst (fst (name_query size s))) ->
  let r := processFilename_loop api process (S tries) size s in
  let r' := processFilename_loop api process tries (size * 2)
              (snd (name_query size s)) in
  val r = val r' /\ tr r = name_call process size :: tr r'.
Proof.
  intros Hpos Hsmall Hfull r r'. subst r r'. cbn [processFilename_loop].
  destruct (name_query_run size s) as (Hv & Hs & Ht).
  rewrite val_bind, tr_bind, Hv, Hs, Ht.
  rewrite (proj2 (Z.eqb_neq _ 0)) by lia.
  rewrite (proj2 (Z.geb_le _ _)) by lia.
  assert (Hsize : to_DWORD (size * 2) = size * 2)
    by (unfold to_DWORD; rewrite Z.mod_small; lia).
  rewrite Hsize. split; reflexivity.
Qed.

(** The turns of the loop on buffers that are too small, taken together. *)
Lemma processFilename_loop_skip n :
  forall tries size s,
    0 < size -> doubled size (n + tries) < 2 ^ 32 ->
    (forall j, (j < n)%nat -> name_too_small size j s) ->
    let r := processFilename_loop api process (n + tries) size s in
    let r' := processFilename_loop api process tries (doubled size n)
                (name_state size n s) in
    val r = val r'
    /\ tr r = map (fun j => name_call process (doubled size j)) (seq 0 n) ++ tr r'.
Proof.
  induction n as [|n IH]; intros tries size s Hpos Hsmall Hfull r r'.
  - subst r r'. cbn [Nat.add name_state seq map app]. rewrite doubled_0.
    split; reflexivity.
  - subst r r'. cbn [Nat.add name_state].
    cbn [Nat.add] in Hsmall. rewrite doubled_S in Hsmall.
    pose proof (doubled_le (size * 2) (n + tries) ltac:(lia)) as Hle.
    assert (H0 : size <= to_DWORD (fst (fst (name_query size s)))).
    { specialize (Hfull 0%nat ltac:(lia)).
      unfold name_too_small, name_written in Hfull.
      cbn [name_state] in Hfull. rewrite doubled_0 in Hfull. exact Hfull. }
    destruct (processFilename_loop_grow (n + tries) size s Hpos ltac:(lia) H0)
      as (Hv & Ht).
    rewrite Hv, Ht.
    assert (Hnext : forall j, (j < n)%nat ->
              name_too_small (size * 2) j (snd (name_query size s))).
    { intros j Hj. specialize (Hfull (S j) ltac:(lia)).
      unfold name_too_small, name_written in *. cbn [name_state] in Hfull.
      rewrite doubled_S in Hfull. exact Hfull. }
    destruct (IH tries (size * 2) (snd (name_query size s)) ltac:(lia) Hsmall Hnext)
      as (Hv' & Ht').
    rewrite Hv', Ht', doubled_S. split; [reflexivity|].
    rewrite map_seq_S, doubled_0. cbn [app]. f_equal. f_equal.
    apply map_ext. intro j. rewrite doubled_S. reflexivity.
Qed.

(** The run of [processFilename] after [n] queries on buffers that are too
    small, in terms of what is left of the loop. *)
Lemma processFilename_skip n tries s :
  (n + tries = 10)%nat ->
  (forall j, (j < n)%nat -> name_too_small MAX_PATH j s) ->
  let rest := processFilename_loop api process tries (doubled MAX_PATH n)
                (name_state MAX_PATH n s) in
  let r := processFilename api process s in
  val r = match val rest with Some name => name | None => [] end
  /\ tr r = map (fun j => name_call process (doubled MAX_PATH j)) (seq 0 n)
            ++ tr rest
            ++ match val rest with
               | Some _ => []
               | None => [name_failure_line process]
               end.
Proof.
  intros Hsum Hfull rest r.
  assert (Hbound : doubled MAX_PATH (n + tries) < 2 ^ 32)
    by (rewrite Hsum; vm_compute; reflexivity).
  destruct (processFilename_loop_skip n tries MAX_PATH s ltac:(reflexivity)
              Hbound Hfull) as (Hv & Ht).
  fold rest in Hv, Ht.
  subst r. unfold processFilename, MaxTries. rewrite <- Hsum.
  rewrite val_bind, tr_bind, Hv, Ht.
  destruct (val rest); autorewrite with run; rewrite <- app_assoc; split; reflexivity.
Qed.

End NameAnswers.

Lemma firstn_stored {A} (zero : A) (cap limit : nat) (data : list A) (n : nat) :
  (n <= limit)%nat -> (n <= List.length data)%nat ->
  firstn n (stored zero cap limit data) = firstn n data.
Proof.
  intros Hlimit Hdata. unfold stored. rewrite firstn_app, length_firstn.
  replace (n - Nat.min limit (List.length data))%nat with 0%nat by lia.
  rewrite firstn_O, app_nil_r, firstn_firstn.
  f_equal. lia.
Qed.

Lemma doubled_below_ten size n :
  0 < size -> (n < 10)%nat -> size <= doubled size n <= size * 512.
Proof.
  intros Hpos Hn. unfold doubled.
  do 10 (destruct n as [|n]; [cbn; lia|]). lia.
Qed.

Section NameOutcomes.

Context {OS : Type}.
Variable api : Platform OS.
Variable process : HANDLE.

Lemma processFilename_loop_fail tries size s :
  to_DWORD (fst (fst (name_query api process size s))) = 0 ->
  let r := processFilename_loop api process (S tries) size s in
  val r = None
  /\ tr r = [name_call process size; Call CallGetLastError;
             Wcerr (formatSystemMessage api
                      (GetLastError api (snd (name_query api process size s)))
                      ++ endl)].
Proof.
  intros Hzero r. subst r. cbn [processFilename_loop].
  destruct (name_query_run api process size s) as (Hv & Hs & Ht).
  rewrite val_bind, tr_bind, Hv, Hs, Ht, Hzero.
  change (0 =? 0) with true. cbv iota.
  unfold last_error. autorewrite with run. split; reflexivity.
Qed.

Lemma processFilename_loop_fit tries size s :
  let w := to_DWORD (fst (fst (name_query api process size s))) in
  0 < w < size -> size + 1 < 2 ^ 32 ->
  let r := processFilename_loop api process (S tries) size s in
  val r = Some (path_filename api
                  (firstn (Z.to_nat w)
                     (stored 0%N (Z.to_nat (size + 1)) (Z.to_nat size)
                        (snd (fst (name_query api process size s))))))
  /\ tr r = [name_call process size].
Proof.
  intros w Hw Hsmall r. subst r. cbn [processFilename_loop].
  destruct (name_query_run api process size s) as (Hv & Hs & Ht).
  rewrite val_bind, tr_bind, Hv, Hs, Ht. fold w.
  rewrite (proj2 (Z.eqb_neq w 0)) by lia.
  assert (Hlt : (w >=? size) = false) by (rewrite Z.geb_leb; apply Z.leb_gt; lia).
  rewrite Hlt.
  assert (Hcap : to_DWORD (size + 1) = size + 1)
    by (unfold to_DWORD; rewrite Z.mod_small; lia).
  rewrite Hcap. autorewrite with run. split; reflexivity.
Qed.

(** X1: when a query of [processFilename] returns zero, after [n] queries on
    buffers that were too small, the function asks nothing more: it reads the
    error, writes its description and the line that names the target to the
    error stream, and returns the empty string. *)
Theorem processFilename_hard_failure_aborts :
  forall s n,
    (n < 10)%nat ->
    (forall j, (j < n)%nat -> name_too_small api process MAX_PATH j s) ->
    name_written api process MAX_PATH n s = 0 ->
    let r := processFilename api process s in
    val r = []
    /\ tr r = map (fun j => name_call process (doubled MAX_PATH j)) (seq 0 (S n))
              ++ [Call CallGetLastError;
                  Wcerr (formatSystemMessage api
                           (GetLastError api
                              (snd (name_query api process (doubled MAX_PATH n)
                                      (name_state api process MAX_PATH n s))))
                           ++ endl);
                  name_failure_line process].
Proof.
  intros s n Hn Hfull Hzero r.
  destruct (processFilename_skip api process n (9 - n + 1) s ltac:(lia) Hfull)
    as (Hv & Ht).
  fold r in Hv, Ht.
  replace (9 - n + 1)%nat with (S (9 - n)) in Hv, Ht by lia.
  destruct (processFilename_loop_fail (9 - n) (doubled MAX_PATH n)
              (name_state api process MAX_PATH n s) Hzero) as (Hrv & Hrt).
  rewrite Hrv in Hv, Ht. rewrite Hrt in Ht.
  split; [exact Hv|].
  rewrite Ht. rewrite seq_S, map_app. cbn [map Nat.add app].
  rewrite <- !app_assoc. reflexivity.
Qed.

(** X2: when a query of [processFilename] returns a length that is neither
    zero nor as large as the buffer, after [n] queries on buffers that were
    too small, the function returns the filename part of exactly that many
    characters from the start of the buffer, which are the characters the
    system stored when it stored that many; no further query is made and
    nothing is written to the error stream. *)
Theorem processFilename_accepts_shorter_answer :
  forall s n,
    (n < 10)%nat ->
    (forall j, (j < n)%nat -> name_too_small api process MAX_PATH j s) ->
    let w := name_written api process MAX_PATH n s in
    let chars := name_stored api process MAX_PATH n s in
    0 < w < doubled MAX_PATH n ->
    let r := processFilename api process s in
    val r = path_filename api
              (firstn (Z.to_nat w)
                 (stored 0%N (Z.to_nat (doubled MAX_PATH n + 1))
                    (Z.to_nat (doubled MAX_PATH n)) chars))
    /\ (w <= Z.of_nat (List.length chars) ->
        val r = path_filename api (firstn (Z.to_nat w) chars))
    /\ tr r = map (fun j => name_call process (doubled MAX_PATH j)) (seq 0 (S n)).
Proof.
  intros s n Hn Hfull w chars Hw r.
  destruct (processFilename_skip api process n (9 - n + 1) s ltac:(lia) Hfull)
    as (Hv & Ht).
  fold r in Hv, Ht.
  replace (9 - n + 1)%nat with (S (9 - n)) in Hv, Ht by lia.
  pose proof (doubled_below_ten MAX_PATH n ltac:(reflexivity) Hn) as Hbound.
  assert (Hcap : doubled MAX_PATH n + 1 < 2 ^ 32)
    by (unfold MAX_PATH in *; word_bounds; lia).
  destruct (processFilename_loop_fit (9 - n) (doubled MAX_PATH n)
              (name_state api process MAX_PATH n s) Hw Hcap) as (Hrv & Hrt).
  rewrite Hrv in Hv, Ht. rewrite Hrt in Ht.
  fold w in Hv. fold chars in Hv.
  assert (Htr : tr r = map (fun j => name_call process (doubled MAX_PATH j))
                           (seq 0 (S n))).
  { rewrite Ht, app_nil_r, seq_S, map_app. reflexivity. }
  split; [exact Hv|]. split; [|exact Htr].
  intro Hlen. rewrite Hv. f_equal.
  unfold w, chars, name_written, name_stored in *. clear Hcap Hbound.
  apply firstn_stored; [lia|].
  apply Nat2Z.inj_le. rewrite Z2Nat.id; [exact Hlen|apply Z.lt_le_incl, Hw].
Qed.

(** X3: when all ten queries of [processFilename] find their buffer too
    small, on 260 characters doubled up to 133120, the function gives up: it
    returns the empty string and writes the one line that names the target
    to the error stream. *)
Theorem processFilename_gives_up_after_ten :
  forall s,
    (forall j, (j < 10)%nat -> name_too_small api process MAX_PATH j s) ->
    let r := processFilename api process s in
    val r = []
    /\ tr r = map (fun j => name_call process (doubled MAX_PATH j)) (seq 0 10)
              ++ [name_failure_line process]
    /\ capacities (tr r)
       = [260; 520; 1040; 2080; 4160; 8320; 16640; 33280; 66560; 133120].
Proof.
  intros s Hfull r.
  destruct (processFilename_skip api process 10 0 s ltac:(lia) Hfull) as (Hv & Ht).
  fold r in Hv, Ht. cbn [processFilename_loop] in Hv, Ht.
  autorewrite with run in Hv, Ht. cbn [app] in Ht.
  split; [exact Hv|]. split; [exact Ht|].
  rewrite Ht, capacities_app, capacities_name_calls, app_nil_r. reflexivity.
Qed.

End NameOutcomes.

(** A system that cannot tell the path of the running image. *)
Definition nameless_state : Sim.State :=
  Sim.mkState 10 [] [Sim.mkProc 10 (L "ModOrganizer.exe") 0] 0 [] []
    (L "C:\Temp\") Sim.noon 0.

(** A system where the running image lies under a path of more than 260
    characters. *)
Definition deep_state : Sim.State :=
  Sim.mkState 10 (L "C:\" ++ repeat 97%N 300 ++ L "\ModOrganizer.exe")
    [Sim.mkProc 10 (L "ModOrganizer.exe") 0] 0 [] [] (L "C:\Temp\") Sim.noon 0.

(** A system where the path of the running image is longer than any buffer
    tried. *)
Definition endless_state : Sim.State :=
  Sim.mkState 10 (repeat 97%N (Z.to_nat 133120))
    [Sim.mkProc 10 (L "ModOrganizer.exe") 0] 0 [] [] (L "C:\Temp\") Sim.noon 0.

Lemma processFilename_hard_failure_aborts_witness :
  val (processFilename Sim.platform INVALID_HANDLE_VALUE nameless_state) = []
  /\ capacities (tr (processFilename Sim.platform INVALID_HANDLE_VALUE nameless_state))
     = [260].
Proof.
  destruct (processFilename_hard_failure_aborts Sim.platform INVALID_HANDLE_VALUE
              nameless_state 0 ltac:(lia) ltac:(intros j Hj; lia) eq_refl)
    as (Hv & Ht).
  split; [exact Hv|]. rewrite Ht. reflexivity.
Defined.

Lemma processFilename_accepts_shorter_answer_witness :
  val (processFilename Sim.platform INVALID_HANDLE_VALUE deep_state)
  = L "ModOrganizer.exe"
  /\ capacities (tr (processFilename Sim.platform INVALID_HANDLE_VALUE deep_state))
     = [260; 520].
Proof.
  assert (Hsmall : forall j, (j < 1)%nat ->
            name_too_small Sim.platform INVALID_HANDLE_VALUE MAX_PATH j deep_state).
  { intros [|j] Hj; [|lia]. vm_compute. discriminate. }
  destruct (processFilename_accepts_shorter_answer Sim.platform INVALID_HANDLE_VALUE
              deep_state 1 ltac:(lia) Hsmall
              ltac:(split; vm_compute; reflexivity))
    as (_ & Hv & Ht).
  split.
  - rewrite Hv; [vm_compute; reflexivity|vm_compute; discriminate].
  - rewrite Ht. reflexivity.
Defined.

Lemma processFilename_gives_up_after_ten_witness :
  val (processFilename Sim.platform INVALID_HANDLE_VALUE endless_state) = []
  /\ error_output (tr (processFilename Sim.platform INVALID_HANDLE_VALUE endless_state))
     = [name_failure_line INVALID_HANDLE_VALUE].
Proof.
  assert (Hsmall : forall j, (j < 10)%nat ->
            name_too_small Sim.platform INVALID_HANDLE_VALUE MAX_PATH j endless_state).
  { intros j Hj.
    do 10 (destruct j as [|j]; [vm_compute; discriminate|]). lia. }
  destruct (processFilename_gives_up_after_ten Sim.platform INVALID_HANDLE_VALUE
              endless_state Hsmall) as (Hv & Ht & _).
  split; [exact Hv|]. rewrite Ht. reflexivity.
Defined.

(** ** The process directory, further *)

(** [a] is [b] with some elements left out, the others in their order. *)
Inductive subseq {A : Type} : list A -> list A -> Prop :=
| subseq_nil : subseq [] []
| subseq_skip x a b : subseq a b -> subseq a (x :: b)
| subseq_take x a b : subseq a b -> subseq (x :: a) (x :: b).

(** The processes a run tried to open, with the access asked for. *)
Definition opens (t : list Event) : list (DWORD * DWORD) :=
  flat_map (fun e => match e with
                     | Call (CallOpenProcess access id) => [(access, id)]
                     | _ => []
                     end) t.

Lemma subseq_In {A} (a b : list A) x : subseq a b -> In x a -> In x b.
Proof.
  induction 1 as [|y a b _ IH|y a b _ IH]; intro Hin.
  - exact Hin.
  - right. apply IH. exact Hin.
  - destruct Hin as [->|Hin]; [left; reflexivity|right; apply IH; exact Hin].
Qed.

Lemma opens_app (t u : list Event) : opens (t ++ u) = opens t ++ opens u.
Proof. unfold opens. apply flat_map_app. Qed.

Lemma opens_name_calls process size m :
  opens (map (fun j => name_call process (doubled size j)) (seq 0 m)) = [].
Proof.
  unfold opens. induction (seq 0 m) as [|j l IH]; [reflexivity|].
  cbn [map flat_map]. rewrite IH. unfold name_call.
  destruct (process =? INVALID_HANDLE_VALUE); reflexivity.
Qed.

Lemma opens_enum_calls size m : opens (map (enum_call size) (seq 0 m)) = [].
Proof.
  unfold opens. induction (seq 0 m) as [|j l IH]; [reflexivity|exact IH].
Qed.

Section DirectoryMore.

Context {OS : Type}.
Variable api : Platform OS.

Lemma opens_processFilename process s :
  opens (tr (processFilename api process s)) = [].
Proof.
  destruct (processFilename_run api process s) as (n & _ & Hcases).
  destruct Hcases as [(_ & _ & Ht)|[(_ & _ & e & Ht)|(_ & _ & Ht)]];
    rewrite Ht; rewrite ?opens_app, opens_name_calls; reflexivity.
Qed.

Lemma opens_runningProcessesIds s :
  opens (tr (runningProcessesIds api s)) = [].
Proof.
  destruct (runningProcessesIds_run api s) as (n & _ & _ & Hcases).
  destruct Hcases as [(_ & _ & _ & _ & Ht)|[(_ & _ & _ & Ht)|(_ & _ & Ht)]];
    rewrite Ht; rewrite ?opens_app, opens_enum_calls; reflexivity.
Qed.

Lemma opens_HandlePtr_destroy h s : opens (tr (HandlePtr_destroy api h s)) = [].
Proof.
  unfold HandlePtr_destroy.
  destruct (h =? NULL); [reflexivity|].
  destruct (h =? INVALID_HANDLE_VALUE); reflexivity.
Qed.

(** One iteration: the records grow by at most one, for the identifier at
    hand and under a filename that is not empty; the process is opened once
    unless the identifier is zero. *)
Lemma runningProcesses_body_run id v s :
  let r := runningProcesses_body api id v s in
  (val r = v
   \/ (id <> 0 /\ exists name, name <> [] /\ val r = v ++ [mkProcess name id]))
  /\ opens (tr r) = if id =? 0 then [] else [(open_access, id)].
Proof.
  intro r. subst r. unfold runningProcesses_body.
  destruct (id =? 0) eqn:Hid; [split; [left|]; reflexivity|].
  apply Z.eqb_neq in Hid.
  rewrite val_bind, tr_bind, opens_app, val_call, st_call, tr_call.
  destruct (negb (HandlePtr_bool (fst (OpenProcess api open_access id s)))).
  - unfold last_error. rewrite !val_bind, !tr_bind, !opens_app, opens_HandlePtr_destroy.
    split; [left; reflexivity|].
    destruct (negb _); reflexivity.
  - rewrite !val_bind, !tr_bind, !opens_app.
    rewrite opens_processFilename, opens_HandlePtr_destroy.
    split; [|reflexivity].
    destruct (val (processFilename api _ _)) as [|c name] eqn:Hname; cbn [empty negb].
    + left. reflexivity.
    + right. split; [exact Hid|]. exists (c :: name). split; [discriminate|reflexivity].
Qed.

Lemma runningProcesses_loop_run pids :
  forall v s,
    let r := runningProcesses_loop api pids v s in
    (exists added,
        val r = v ++ added
        /\ subseq (map pid added) pids
        /\ Forall (fun p => filename p <> []) added)
    /\ opens (tr r)
       = map (fun id => (open_access, id)) (filter (fun id => negb (id =? 0)) pids).
Proof.
  induction pids as [|id rest IH]; intros v s r; subst r;
    cbn [runningProcesses_loop].
  - split; [|reflexivity]. exists []. rewrite app_nil_r.
    split; [reflexivity|]. split; [constructor|constructor].
  - rewrite val_bind, tr_bind, opens_app.
    destruct (runningProcesses_body_run id v s) as (Hbody & Hopen).
    destruct (IH (val (runningProcesses_body api id v s))
                 (st (runningProcesses_body api id v s)))
      as ((added & Hv & Hsub & Hnames) & Hopens).
    rewrite Hopen, Hopens. split.
    + destruct Hbody as [Hsame|(Hid & name & Hname & Hnew)].
      * exists added. rewrite Hv, Hsame. split; [reflexivity|].
        split; [apply subseq_skip; exact Hsub|exact Hnames].
      * exists (mkProcess name id :: added).
        rewrite Hv, Hnew, <- app_assoc. split; [reflexivity|].
        split; [apply subseq_take; exact Hsub|].
        constructor; [exact Hname|exact Hnames].
    + cbn [filter]. destruct (id =? 0); reflexivity.
Qed.

Lemma runningProcesses_keeps_enumeration_order_aux s :
  subseq (map pid (val (runningProcesses api s))) (val (runningProcessesIds api s))
  /\ Forall (fun p => filename p <> []) (val (runningProcesses api s)).
Proof.
  unfold runningProcesses. rewrite val_bind.
  destruct (runningProcesses_loop_run (val (runningProcessesIds api s)) []
              (st (runningProcessesIds api s)))
    as ((added & Hv & Hsub & Hnames) & _).
  rewrite Hv. split; [exact Hsub|exact Hnames].
Qed.

Lemma runningProcesses_pids_nonzero s :
  Forall (fun p => pid p <> 0) (val (runningProcesses api s)).
Proof.
  unfold runningProcesses. rewrite val_bind.
  apply runningProcesses_loop_pids. apply Forall_nil.
Qed.

(** X4: the identifiers of the records of [runningProcesses] are, in order,
    the identifiers that [runningProcessesIds] returned with some of them
    left out: no record is made up, moved or made twice for one entry; and
    no record has an empty filename. *)
Theorem runningProcesses_keeps_enumeration_order :
  forall s,
    let ids := runningProcessesIds api s in
    let r := runningProcesses api s in
    subseq (map pid (val r)) (val ids)
    /\ Forall (fun p => filename p <> []) (val r).
Proof.
  intros s ids r. exact (runningProcesses_keeps_enumeration_order_aux s).
Qed.

(** X5: [runningProcesses] opens each process whose identifier
    [runningProcessesIds] returned and is not zero, once and in that order,
    asking for the rights to query information and to read memory, and it
    opens nothing else. *)
Theorem runningProcesses_opens_each_once :
  forall s,
    opens (tr (runningProcesses api s))
    = map (fun id => (Z.lor PROCESS_QUERY_INFORMATION PROCESS_VM_READ, id))
          (filter (fun id => negb (id =? 0)) (val (runningProcessesIds api s))).
Proof.
  intro s. unfold runningProcesses.
  rewrite tr_bind, opens_app, opens_runningProcessesIds.
  exact (proj2 (runningProcesses_loop_run _ [] _)).
Qed.

(** X6: [runningProcessesIds] never returns as many identifiers as its
    largest array holds, 153600. *)
Theorem runningProcessesIds_below_largest_array :
  forall s, Z.of_nat (List.length (val (runningProcessesIds api s))) < 153600.
Proof.
  intro s.
  destruct (runningProcessesIds_run api s) as (n & Hn & _ & Hcases).
  destruct Hcases as [(Hlt & _ & Hlen & Hv & _)|[(_ & _ & Hv & _)|(_ & Hv & _)]];
    rewrite Hv; [|reflexivity|reflexivity].
  pose proof (doubled_below_ten 300 n ltac:(lia) Hlt). lia.
Qed.

Lemma findOtherPid_scan_some name thisPid processes other :
  findOtherPid_scan name thisPid processes = Some other ->
  other <> thisPid
  /\ exists p, In p processes /\ pid p = other /\ filename p = name.
Proof.
  induction processes as [|p rest IH]; intro Hscan; cbn [findOtherPid_scan] in Hscan;
    [discriminate|].
  assert (Hrest : findOtherPid_scan name thisPid rest = Some other ->
                  other <> thisPid
                  /\ exists q, In q (p :: rest) /\ pid q = other /\ filename q = name).
  { intro H. destruct (IH H) as (Hne & q & Hin & Hq).
    split; [exact Hne|]. exists q. split; [right; exact Hin|exact Hq]. }
  destruct (wstring_eqb (filename p) name) eqn:Hname; [|exact (Hrest Hscan)].
  destruct (pid p =? thisPid) eqn:Hpid; cbn [negb] in Hscan; [exact (Hrest Hscan)|].
  injection Hscan as <-. apply Z.eqb_neq in Hpid. apply wstring_eqb_eq in Hname.
  split; [exact Hpid|]. exists p. split; [left; reflexivity|]. split; [reflexivity|exact Hname].
Qed.

(** X7: [findOtherPid] returns zero, or else an identifier that is not the
    caller's and not zero, that the enumeration returned, and that belongs to
    a record of [runningProcesses] whose filename is the name looked for. *)
Theorem findOtherPid_returns_zero_or_another_process :
  forall s,
    let thisPid := GetCurrentProcessId api s in
    let own := processFilename api INVALID_HANDLE_VALUE s in
    let name := if empty (val own) then defaultName else val own in
    let other := val (findOtherPid api s) in
    other = 0
    \/ (other <> thisPid /\ other <> 0
        /\ In other (val (runningProcessesIds api (st own)))
        /\ exists p, In p (val (runningProcesses api (st own)))
                     /\ pid p = other /\ filename p = name).
Proof.
  intros s thisPid own name other.
  pose proof (findOtherPid_val api s) as Hval. cbv zeta in Hval.
  fold own in Hval. fold name in Hval. fold thisPid in Hval. fold other in Hval.
  destruct (findOtherPid_scan name thisPid (val (runningProcesses api (st own))))
    as [found|] eqn:Hscan; [|left; exact Hval].
  right. subst found.
  destruct (findOtherPid_scan_some _ _ _ _ Hscan) as (Hne & p & Hin & Hpid & Hname).
  destruct (runningProcesses_keeps_enumeration_order_aux (st own)) as (Hsub & _).
  split; [exact Hne|].
  pose proof (runningProcesses_pids_nonzero (st own)) as Hnz.
  rewrite Forall_forall in Hnz.
  split; [rewrite <- Hpid; apply Hnz; exact Hin|].
  split.
  - apply (subseq_In _ _ _ Hsub). rewrite <- Hpid. apply in_map. exact Hin.
  - exists p. split; [exact Hin|]. split; [exact Hpid|exact Hname].
Qed.

End DirectoryMore.

(** ** [tempDir] *)

(** X8: [tempDir] asks once for the temporary path, on 261 characters.  When
    the answer is zero it reads the error, reports it on the error stream and
    returns the empty string.  When the answer is a length that the buffer
    holds, it reports nothing and returns a string of exactly that length:
    the characters the system stored, when it stored that many. *)
Theorem tempDir_returns_what_was_written :
  forall {OS} (api : Platform OS) s,
    let answer := GetTempPathW api 261 s in
    let written := to_DWORD (fst (fst answer)) in
    let chars := snd (fst answer) in
    let r := tempDir api s in
    (written = 0 ->
       val r = []
       /\ tr r = [Call (CallGetTempPathW 261); Call CallGetLastError;
                  Wcerr (L "failed to get temp path, "
                           ++ formatSystemMessage api (GetLastError api (snd answer))
                           ++ endl)])
    /\ (0 < written <= 261 ->
        Z.of_nat (List.length (val r)) = written
        /\ (written <= Z.of_nat (List.length chars) ->
            val r = firstn (Z.to_nat written) chars)
        /\ tr r = [Call (CallGetTempPathW 261)]).
Proof.
  intros OS api s answer written chars r. subst r. unfold tempDir.
  change (to_DWORD (MAX_PATH + 1)) with 261.
  rewrite val_bind, tr_bind, val_call, st_call, tr_call.
  fold answer. fold written. fold chars.
  split.
  - intro Hzero. rewrite Hzero. change (0 =? 0) with true. cbv iota.
    unfold last_error. autorewrite with run. split; reflexivity.
  - intro Hw. rewrite (proj2 (Z.eqb_neq written 0)) by lia.
    autorewrite with run. split; [|split; [|reflexivity]].
    + rewrite length_firstn, stored_length by lia. lia.
    + intro Hlen. apply firstn_stored; [lia|].
      apply Nat2Z.inj_le. rewrite Z2Nat.id; [exact Hlen|lia].
Qed.

Lemma tempDir_returns_what_was_written_witness :
  val (tempDir Sim.platform capture_state) = L "C:\Temp\"
  /\ val (tempDir Sim.platform
            (Sim.mkState 10 Sim.mo [] 0 [] [] [] Sim.noon 0)) = [].
Proof.
  split.
  - destruct (proj2 (tempDir_returns_what_was_written Sim.platform capture_state)
                ltac:(split; vm_compute; [reflexivity|discriminate]))
      as (_ & Hv & _).
    rewrite Hv; [vm_compute; reflexivity|vm_compute; discriminate].
  - exact (proj1 (proj1 (tempDir_returns_what_was_written Sim.platform
                           (Sim.mkState 10 Sim.mo [] 0 [] [] [] Sim.noon 0))
                    eq_refl)).
Defined.

(** ** [tempFile], further *)

Section AllocationMore.

Context {OS : Type}.
Variable api : Platform OS.
Variable dir prefix : wstring.

(** One turn of the loop on a name that is taken. *)
Lemma tempFile_loop_collide n i s :
  let path := attempt_path dir prefix in
  collides api (path i) s ->
  let r := tempFile_loop api dir prefix (S n) (Z.of_nat i) (path i) s in
  let r' := tempFile_loop api dir prefix n (Z.of_nat (S i)) (path (S i))
              (snd (CreateFileW api (path i) s)) in
  val r = val r'
  /\ attempts (tr r) = path i :: attempts (tr r')
  /\ error_output (tr r) = error_output (tr r').
Proof.
  intros path (Hbad & Hexists) r r'. subst r r'. cbn [tempFile_loop].
  unfold last_error. autorewrite with run. unfold HandlePtr_get. fold (path i).
  rewrite Hbad. rewrite Z.eqb_refl. cbn [negb]. cbv iota.
  autorewrite with run. rewrite Hexists, Z.eqb_refl. cbn [negb]. cbv iota.
  assert (Hnext : dir ++ L "\" ++ prefix ++ L "-" ++ to_wstring (Z.of_nat i + 1)
                      ++ dump_ext = path (S i)).
  { subst path. unfold attempt_path.
    replace (Z.of_nat i + 1) with (Z.of_nat (S i)) by lia. reflexivity. }
  rewrite Hnext. replace (Z.of_nat i + 1) with (Z.of_nat (S i)) by lia.
  rewrite !attempts_app, !error_output_app. repeat split.
Qed.

(** The turns of the loop on names that are taken, taken together. *)
Lemma tempFile_loop_skip k :
  forall n i s,
    let path := attempt_path dir prefix in
    (forall j, (j < k)%nat -> collides api (path (i + j)%nat) (create_state api path i j s)) ->
    let r := tempFile_loop api dir prefix (k + n) (Z.of_nat i) (path i) s in
    let r' := tempFile_loop api dir prefix n (Z.of_nat (i + k)) (path (i + k)%nat)
                (create_state api path i k s) in
    val r = val r'
    /\ attempts (tr r) = map path (seq i k) ++ attempts (tr r')
    /\ error_output (tr r) = error_output (tr r').
Proof.
  induction k as [|k IH]; intros n i s path Hcollide r r'; subst r r'.
  - cbn [Nat.add create_state seq map app]. rewrite Nat.add_0_r. repeat split.
  - cbn [Nat.add create_state].
    assert (H0 : collides api (path i) s).
    { specialize (Hcollide 0%nat ltac:(lia)). rewrite Nat.add_0_r in Hcollide.
      exact Hcollide. }
    destruct (tempFile_loop_collide (k + n) i s H0) as (Hv & Ha & He).
    fold path in Hv, Ha, He. rewrite Hv, Ha, He.
    assert (Hnext : forall j, (j < k)%nat ->
              collides api (path (S i + j)%nat)
                (create_state api path (S i) j (snd (CreateFileW api (path i) s)))).
    { intros j Hj. specialize (Hcollide (S j) ltac:(lia)).
      cbn [create_state] in Hcollide.
      replace (S i + j)%nat with (i + S j)%nat by lia. exact Hcollide. }
    destruct (IH n (S i) (snd (CreateFileW api (path i) s)) Hnext) as (Hv' & Ha' & He').
    fold path in Hv', Ha', He'.
    replace (i + S k)%nat with (S i + k)%nat by lia.
    rewrite Hv', Ha', He'. repeat split.
Qed.

(** The last turn, when the file is created and when the creation fails for
    another reason than an existing file. *)
Lemma tempFile_loop_end n i path s :
  let created := CreateFileW api path s in
  let r := tempFile_loop api dir prefix (S n) i path s in
  (fst created <> INVALID_HANDLE_VALUE ->
     val r = Some (fst created) /\ attempts (tr r) = [path]
     /\ error_output (tr r) = [])
  /\ (fst created = INVALID_HANDLE_VALUE ->
      GetLastError api (snd created) <> ERROR_FILE_EXISTS ->
      val r = Some HandlePtr_empty /\ attempts (tr r) = [path]
      /\ error_output (tr r)
         = [create_failure_line api (GetLastError api (snd created))]).
Proof.
  intros created r. subst r. cbn [tempFile_loop].
  unfold last_error. autorewrite with run. unfold HandlePtr_get. fold created.
  split.
  - intro Hok. rewrite (proj2 (Z.eqb_neq _ _) Hok). cbn [negb]. cbv iota.
    autorewrite with run. repeat split.
  - intros Hbad Hother. rewrite Hbad, Z.eqb_refl. cbn [negb]. cbv iota.
    autorewrite with run. rewrite (proj2 (Z.eqb_neq _ _) Hother). cbn [negb]. cbv iota.
    autorewrite with run. repeat split.
Qed.

End AllocationMore.

Section TempFileMore.

Context {OS : Type}.
Variable api : Platform OS.

(** The run of [tempFile] after [k] attempts on names that are taken, in
    terms of what is left of the loop. *)
Lemma tempFile_skip dir s k n :
  (k + n = 100)%nat ->
  let path := attempt_path dir (dump_prefix (gmtime api (fst (time api s)))) in
  let state := fun j => create_state api path 0 j (snd (time api s)) in
  (forall j, (j < k)%nat -> collides api (path j) (state j)) ->
  let rest := tempFile_loop api dir (dump_prefix (gmtime api (fst (time api s))))
                n (Z.of_nat k) (path k) (state k) in
  let r := tempFile api dir s in
  val r = match val rest with Some h => h | None => HandlePtr_empty end
  /\ attempts (tr r) = map path (seq 0 k) ++ attempts (tr rest)
  /\ error_output (tr r)
     = error_output (tr rest)
       ++ match val rest with Some _ => [] | None => [out_of_names_line] end.
Proof.
  intros Hsum path state Hcollide rest r.
  destruct (tempFile_loop_skip api dir
              (dump_prefix (gmtime api (fst (time api s)))) k n 0
              (snd (time api s)) Hcollide) as (Hv & Ha & He).
  fold path in Hv, Ha, He. cbn [Nat.add] in Hv, Ha, He.
  fold rest in Hv, Ha, He.
  subst r. unfold tempFile, MaxNames. rewrite <- Hsum.
  autorewrite with run.
  change (dir ++ L "\" ++ dump_prefix (gmtime api (fst (time api s))) ++ dump_ext)
    with (path 0%nat).
  change (Z.of_nat 0) with 0 in Hv, Ha, He.
  rewrite Hv, !attempts_app, !error_output_app, Ha, He.
  unfold rest.
  destruct (val (tempFile_loop api dir _ n _ _ _)); autorewrite with run;
    cbn [attempts flat_map error_output filter is_error_output app];
    rewrite ?app_nil_r; repeat split.
Qed.

(** X9: when an attempt of [tempFile] fails for another reason than an
    existing file, after [k] attempts on names that were taken, no further
    name is tried: the function reports that error on the error stream and
    returns the empty handle. *)
Theorem tempFile_stops_at_other_failure :
  forall dir s k,
    let path := attempt_path dir (dump_prefix (gmtime api (fst (time api s)))) in
    let state := fun j => create_state api path 0 j (snd (time api s)) in
    (k < 100)%nat ->
    (forall j, (j < k)%nat -> collides api (path j) (state j)) ->
    let created := CreateFileW api (path k) (state k) in
    fst created = INVALID_HANDLE_VALUE ->
    GetLastError api (snd created) <> ERROR_FILE_EXISTS ->
    let r := tempFile api dir s in
    val r = HandlePtr_empty
    /\ attempts (tr r) = map path (seq 0 (S k))
    /\ error_output (tr r)
       = [create_failure_line api (GetLastError api (snd created))].
Proof.
  intros dir s k. cbv beta zeta. intros Hk Hcollide Hbad Hother.
  pose proof (tempFile_skip dir s k (S (99 - k)) ltac:(lia)) as Hskip.
  cbv beta zeta in Hskip. destruct (Hskip Hcollide) as (Hv & Ha & He).
  pose proof (tempFile_loop_end api dir
                (dump_prefix (gmtime api (fst (time api s))))
                (99 - k) (Z.of_nat k)
                (attempt_path dir (dump_prefix (gmtime api (fst (time api s)))) k)
                (create_state api
                   (attempt_path dir (dump_prefix (gmtime api (fst (time api s)))))
                   0 k (snd (time api s)))) as Hend.
  cbv beta zeta in Hend. destruct (proj2 Hend Hbad Hother) as (Hrv & Hra & Hre).
  rewrite Hrv in Hv, He. rewrite Hra in Ha. rewrite Hre in He.
  split; [exact Hv|]. split; [|rewrite He; reflexivity].
  rewrite Ha, seq_S, map_app. reflexivity.
Qed.

(** X10: when an attempt of [tempFile] creates its file, after [k] attempts
    on names that were taken, the function returns the handle of that file,
    has tried exactly the first [k + 1] names and has written nothing to the
    error stream. *)
Theorem tempFile_returns_created_file :
  forall dir s k,
    let path := attempt_path dir (dump_prefix (gmtime api (fst (time api s)))) in
    let state := fun j => create_state api path 0 j (snd (time api s)) in
    (k < 100)%nat ->
    (forall j, (j < k)%nat -> collides api (path j) (state j)) ->
    let created := CreateFileW api (path k) (state k) in
    fst created <> INVALID_HANDLE_VALUE ->
    let r := tempFile api dir s in
    val r = fst created
    /\ attempts (tr r) = map path (seq 0 (S k))
    /\ error_output (tr r) = [].
Proof.
  intros dir s k. cbv beta zeta. intros Hk Hcollide Hok.
  pose proof (tempFile_skip dir s k (S (99 - k)) ltac:(lia)) as Hskip.
  cbv beta zeta in Hskip. destruct (Hskip Hcollide) as (Hv & Ha & He).
  pose proof (tempFile_loop_end api dir
                (dump_prefix (gmtime api (fst (time api s))))
                (99 - k) (Z.of_nat k)
                (attempt_path dir (dump_prefix (gmtime api (fst (time api s)))) k)
                (create_state api
                   (attempt_path dir (dump_prefix (gmtime api (fst (time api s)))))
                   0 k (snd (time api s)))) as Hend.
  cbv beta zeta in Hend. destruct (proj1 Hend Hok) as (Hrv & Hra & Hre).
  rewrite Hrv in Hv, He. rewrite Hra in Ha. rewrite Hre in He.
  split; [exact Hv|]. split; [|exact He].
  rewrite Ha, seq_S, map_app. reflexivity.
Qed.

(** X11: whatever the system answers, [tempFile] makes at least one and at
    most one hundred attempts, on the names of the directory in their order,
    and what it returns is never [INVALID_HANDLE_VALUE]: a failure is the
    empty handle. *)
Theorem tempFile_attempts_are_bounded :
  forall dir s,
    let path := attempt_path dir (dump_prefix (gmtime api (fst (time api s)))) in
    let r := tempFile api dir s in
    (exists n, (1 <= n <= 100)%nat /\ attempts (tr r) = map path (seq 0 n))
    /\ HandlePtr_get (val r) <> INVALID_HANDLE_VALUE.
Proof.
  intros dir s path r. split.
  - destruct (tempFile_run api dir s) as (m & Hm & _ & Hatt & _).
    fold path r in Hatt.
    exists (if (m <? 100)%nat then S m else m). split; [|exact Hatt].
    destruct (m <? 100)%nat eqn:Hlt.
    + apply Nat.ltb_lt in Hlt. lia.
    + apply Nat.ltb_ge in Hlt. lia.
  - apply tempFile_not_invalid.
Qed.

End TempFileMore.

(** A working directory that cannot be written and in which the first two
    names of noon, 15 January 2024, are taken. *)
Definition taken_protected_state : Sim.State :=
  Sim.mkState 10 Sim.mo [Sim.mkProc 10 (L "ModOrganizer.exe") 0] 0
    [L ".\ModOrganizer-20240115T120000.dmp";
     L ".\ModOrganizer-20240115T120000-1.dmp"]
    [L "."] (L "C:\Temp\") Sim.noon 0.

Lemma tempFile_stops_at_other_failure_witness :
  val (tempFile Sim.platform (L ".") taken_protected_state) = HandlePtr_empty
  /\ attempts (tr (tempFile Sim.platform (L ".") taken_protected_state))
     = [L ".\ModOrganizer-20240115T120000.dmp";
        L ".\ModOrganizer-20240115T120000-1.dmp";
        L ".\ModOrganizer-20240115T120000-2.dmp"]
  /\ error_output (tr (tempFile Sim.platform (L ".") taken_protected_state))
     = [create_failure_line Sim.platform ERROR_ACCESS_DENIED].
Proof.
  pose proof (tempFile_stops_at_other_failure Sim.platform (L ".")
                taken_protected_state 2) as H.
  cbv beta zeta in H.
  destruct H as (Hv & Ha & He).
  - lia.
  - intros j Hj. do 2 (destruct j as [|j]; [split; vm_compute; reflexivity|]). lia.
  - vm_compute. reflexivity.
  - vm_compute. discriminate.
  - split; [exact Hv|]. split.
    + rewrite Ha. vm_compute. reflexivity.
    + rewrite He. vm_compute. reflexivity.
Defined.

Lemma tempFile_returns_created_file_witness :
  val (tempFile Sim.platform (L ".") taken_state) = Sim.file_handle 2
  /\ error_output (tr (tempFile Sim.platform (L ".") taken_state)) = [].
Proof.
  pose proof (tempFile_returns_created_file Sim.platform (L ".") taken_state 2) as H.
  cbv beta zeta in H.
  destruct H as (Hv & _ & He).
  - lia.
  - intros j Hj. do 2 (destruct j as [|j]; [split; vm_compute; reflexivity|]). lia.
  - vm_compute. discriminate.
  - split; [|exact He]. rewrite Hv. vm_compute. reflexivity.
Defined.

(** ** [dumpFile] and [createMiniDump], further *)

(** The events of a creation in one directory: the temporary path is not
    asked for. *)
Definition creation_event (e : Event) : Prop :=
  match e with
  | Call (CallGetTempPathW _) => False
  | _ => True
  end.

(** The snapshot calls of a run, with their arguments. *)
Definition snapshots (t : list Event) : list (HANDLE * DWORD * HANDLE * Z) :=
  flat_map (fun e => match e with
                     | Call (CallMiniDumpWriteDump process id file flags) =>
                         [(process, id, file, flags)]
                     | _ => []
                     end) t.

Lemma snapshots_app (t u : list Event) :
  snapshots (t ++ u) = snapshots t ++ snapshots u.
Proof. unfold snapshots. apply flat_map_app. Qed.

Lemma snapshots_allocation (t : list Event) :
  Forall allocation_event t -> snapshots t = [].
Proof.
  induction 1 as [|e t He _ IH]; [reflexivity|].
  unfold snapshots in *. cbn [flat_map]. rewrite IH.
  destruct e as [[]| | |]; try reflexivity. contradiction.
Qed.

Section CaptureMore.

Context {OS : Type}.
Variable api : Platform OS.

Lemma last_error_creation s : Forall creation_event (tr (last_error api s)).
Proof. unfold last_error. trace_solve. Qed.

Hint Resolve last_error_creation : trace.

Lemma tempFile_loop_creation dir prefix n i path s :
  Forall creation_event (tr (tempFile_loop api dir prefix n i path s)).
Proof.
  revert i path s.
  induction n as [|n IH]; intros i path s;
    cbn [tempFile_loop]; trace_solve.
Qed.

Hint Resolve tempFile_loop_creation : trace.

Lemma tempFile_creation dir s : Forall creation_event (tr (tempFile api dir s)).
Proof. unfold tempFile. trace_solve. Qed.

(** X12: whatever the system does, [dumpFile] does what [tempFile] does on
    the working directory and nothing more: same result, same state of the
    system, same calls and output; the temporary path is never asked for.
    What [tempFile] returns is never [INVALID_HANDLE_VALUE], the one value
    on which [dumpFile] would go on. *)
Theorem dumpFile_only_tries_working_directory :
  forall s,
    val (dumpFile api s) = val (tempFile api (L ".") s)
    /\ st (dumpFile api s) = st (tempFile api (L ".") s)
    /\ tr (dumpFile api s) = tr (tempFile api (L ".") s)
    /\ (forall n, ~ In (Call (CallGetTempPathW n)) (tr (dumpFile api s))).
Proof.
  intro s.
  destruct (dumpFile_is_tempFile_here api s) as (Hv & Hs & Ht).
  split; [exact Hv|]. split; [exact Hs|]. split; [exact Ht|].
  intros n Hin. rewrite Ht in Hin.
  pose proof (tempFile_creation (L ".") s) as Hall.
  rewrite Forall_forall in Hall. exact (Hall _ Hin).
Qed.

(** X13: when [dumpFile] gives no file, [createMiniDump] returns [false]
    without a snapshot call: after the query of the process identifier and
    the run of [dumpFile], it only writes one line to the error stream. *)
Theorem createMiniDump_without_file :
  forall process type s,
    HandlePtr_bool (val (dumpFile api s)) = false ->
    let r := createMiniDump api process type s in
    val r = false
    /\ snapshots (tr r) = []
    /\ tr r = [Call (CallGetProcessId process)] ++ tr (dumpFile api s)
              ++ [Wcerr (L "nowhere to write the dump file" ++ endl)].
Proof.
  intros process type s Hnone r. subst r. unfold createMiniDump.
  rewrite !val_bind, !tr_bind, val_query, st_query, tr_query.
  rewrite Hnone. cbn [negb]. cbv iota.
  assert (Hnull : val (dumpFile api s) = NULL).
  { unfold HandlePtr_bool in Hnone. apply negb_false_iff, Z.eqb_eq in Hnone.
    exact Hnone. }
  rewrite Hnull. unfold HandlePtr_destroy. change (NULL =? NULL) with true.
  cbv iota.
  rewrite ?val_bind, ?tr_bind, ?val_emit, ?st_emit, ?tr_emit, ?val_ret, ?st_ret, ?tr_ret.
  rewrite ?app_nil_r.
  split; [reflexivity|]. split; [|reflexivity].
  rewrite !snapshots_app, (snapshots_allocation _ (dumpFile_allocation api s)).
  reflexivity.
Qed.

(** X14: when [dumpFile] gives a file, [createMiniDump] makes exactly one
    snapshot call, on the process it was given, under the identifier the
    system told for it before the file was allocated, into that file and
    with the flags of the requested type; it returns what that call
    returned. *)
Theorem createMiniDump_with_file :
  forall process type s,
    HandlePtr_bool (val (dumpFile api s)) = true ->
    let id := GetProcessId api process s in
    let file := dumpFile api s in
    let written := MiniDumpWriteDump api process id (val file) (dump_flags type)
                     (st file) in
    let r := createMiniDump api process type s in
    val r = fst written
    /\ snapshots (tr r) = [(process, id, val file, dump_flags type)].
Proof.
  intros process type s Hfile id file written r. subst r. unfold createMiniDump.
  rewrite !val_bind, !tr_bind, !snapshots_app, val_query, st_query, tr_query.
  fold id. rewrite Hfile. cbn [negb]. cbv iota.
  rewrite ?val_bind, ?tr_bind, ?snapshots_app, ?val_emit, ?st_emit, ?tr_emit,
    ?val_call, ?st_call, ?tr_call.
  rewrite (snapshots_allocation _ (dumpFile_allocation api s)).
  unfold HandlePtr_get. fold file. fold written.
  destruct (fst written) eqn:Hw; cbn [negb]; cbv iota.
  - rewrite ?val_bind, ?tr_bind, ?snapshots_app.
    rewrite (snapshots_allocation _ (HandlePtr_destroy_allocation api _ _)).
    split; reflexivity.
  - unfold last_error. rewrite ?val_bind, ?tr_bind, ?snapshots_app.
    rewrite (snapshots_allocation _ (HandlePtr_destroy_allocation api _ _)).
    split; reflexivity.
Qed.

End CaptureMore.

Lemma createMiniDump_without_file_witness :
  val (createMiniDump Sim.platform INVALID_HANDLE_VALUE Mini protected_state) = false.
Proof.
  exact (proj1 (createMiniDump_without_file Sim.platform INVALID_HANDLE_VALUE Mini
                  protected_state eq_refl)).
Defined.

Lemma createMiniDump_with_file_witness :
  snapshots (tr (createMiniDump Sim.platform INVALID_HANDLE_VALUE Full capture_state))
  = [(INVALID_HANDLE_VALUE, 10, Sim.file_handle 0, 0x126)].
Proof.
  rewrite (proj2 (createMiniDump_with_file Sim.platform INVALID_HANDLE_VALUE Full
                    capture_state eq_refl)).
  vm_compute. reflexivity.
Defined.

(** ** The console *)

(** A [FILE*]; zero is the null pointer. *)
Definition FILEp := Z.

Inductive StdStream := Stdin | Stdout | Stderr.

Inductive ConsoleCall :=
| CallAllocConsole
| CallFreeConsole
| CallFreopen (name mode : string) (stream : StdStream)
| CallFclose (file : FILEp).

Record Console := mkConsole {
  m_hasConsole : bool;
  m_in : FILEp;
  m_out : FILEp;
  m_err : FILEp
}.

Section ConsoleModel.

(** The state of the console and of the standard streams, left abstract. *)
Context {CS : Type}.

(** What the console code calls.  [freopen_s] answers with the pointer it
    writes through its first argument, null when it fails. *)
Record ConsoleApi := mkConsoleApi {
  AllocConsole : CS -> bool * CS;
  FreeConsole : CS -> bool * CS;
  freopen_s : string -> string -> StdStream -> CS -> FILEp * CS;
  fclose : FILEp -> CS -> CS
}.

Variable capi : ConsoleApi.

(** [Console::Console]: the object built, the state after and the calls
    made.  The answer of [AllocConsole] is looked at and ignored. *)
Definition Console_new (s : CS) : Console * CS * list ConsoleCall :=
  let allocated := AllocConsole capi s in
  let hasConsole := true in
  let i := freopen_s capi "CONIN$" "r" Stdin (snd allocated) in
  let o := freopen_s capi "CONOUT$" "w" Stdout (snd i) in
  let e := freopen_s capi "CONOUT$" "w" Stderr (snd o) in
  (mkConsole hasConsole (fst i) (fst o) (fst e), snd e,
   [CallAllocConsole; CallFreopen "CONIN$" "r" Stdin;
    CallFreopen "CONOUT$" "w" Stdout; CallFreopen "CONOUT$" "w" Stderr]).

(** [Console::~Console]: the state after and the calls made. *)
Definition Console_delete (c : Console) (s : CS) : CS * list ConsoleCall :=
  let '(s1, t1) :=
    if negb (m_err c =? 0) then
      let closed := fclose capi (m_err c) s in
      let reopened := freopen_s capi "NUL" "w" Stderr closed in
      (snd reopened, [CallFclose (m_err c); CallFreopen "NUL" "w" Stderr])
    else (s, []) in
  let '(s2, t2) :=
    if negb (m_out c =? 0) then
      let closed := fclose capi (m_out c) s1 in
      let reopened := freopen_s capi "NUL" "w" Stdout closed in
      (snd reopened, [CallFclose (m_out c); CallFreopen "NUL" "w" Stdout])
    else (s1, []) in
  let '(s3, t3) :=
    if negb (m_in c =? 0) then
      let closed := fclose capi (m_in c) s2 in
      let reopened := freopen_s capi "NUL" "r" Stdin closed in
      (snd reopened, [CallFclose (m_in c); CallFreopen "NUL" "r" Stdin])
    else (s2, []) in
  if m_hasConsole c then
    (snd (FreeConsole capi s3), t1 ++ t2 ++ t3 ++ [CallFreeConsole])
  else (s3, t1 ++ t2 ++ t3).

End ConsoleModel.

Arguments ConsoleApi : clear implicits.

(** The streams a run closed, and the standard streams it sent to [NUL]. *)
Definition closed_files (t : list ConsoleCall) : list FILEp :=
  flat_map (fun c => match c with CallFclose f => [f] | _ => [] end) t.

Definition silenced (t : list ConsoleCall) : list StdStream :=
  flat_map (fun c => match c with
                     | CallFreopen name _ stream =>
                         if String.eqb name "NUL" then [stream] else []
                     | _ => []
                     end) t.

Definition is_free (c : ConsoleCall) : bool :=
  match c with CallFreeConsole => true | _ => false end.

(** X15: an object built by the constructor of [Console] has its flag set
    whether or not [AllocConsole] succeeded, so its destructor calls
    [FreeConsole] exactly once, as its last call, in every case. *)
Theorem Console_always_frees :
  forall {CS} (capi : ConsoleApi CS) s s',
    let c := fst (fst (Console_new capi s)) in
    let t := snd (Console_delete capi c s') in
    m_hasConsole c = true
    /\ (exists before, t = before ++ [CallFreeConsole]
                       /\ filter is_free before = [])
    /\ snd (Console_new capi s)
       = [CallAllocConsole; CallFreopen "CONIN$" "r" Stdin;
          CallFreopen "CONOUT$" "w" Stdout; CallFreopen "CONOUT$" "w" Stderr].
Proof.
  intros CS capi s s' c t. split; [reflexivity|]. split; [|reflexivity].
  subst t. unfold Console_delete.
  change (m_hasConsole c) with true.
  destruct (negb (m_err c =? 0)), (negb (m_out c =? 0)), (negb (m_in c =? 0));
    cbv iota beta; eexists;
    (split; [rewrite !app_assoc; reflexivity|reflexivity]).
Qed.

(** X16: the destructor of [Console] closes the streams of the object that
    are not null, and only those, in the order error, output, input; each
    stream it closes it reopens on [NUL]; a stream that is null, as after a
    failed redirection, is neither closed nor reopened. *)
Theorem Console_closes_what_was_opened :
  forall {CS} (capi : ConsoleApi CS) c s,
    let t := snd (Console_delete capi c s) in
    closed_files t = filter (fun f => negb (f =? 0)) [m_err c; m_out c; m_in c]
    /\ silenced t
       = map snd (filter (fun p => negb (fst p =? 0))
                    [(m_err c, Stderr); (m_out c, Stdout); (m_in c, Stdin)]).
Proof.
  intros CS capi c s t. subst t. unfold Console_delete.
  cbn [filter map fst snd].
  destruct (negb (m_err c =? 0)), (negb (m_out c =? 0)), (negb (m_in c =? 0)),
    (m_hasConsole c); split; reflexivity.
Qed.

(** ** The queries of [processFilename] *)

(** What [processFilename] may emit for a target: queries about the running
    image when the target is [INVALID_HANDLE_VALUE], queries about the
    process behind the handle otherwise, the reading of the error and lines
    on the error stream. *)
Definition name_event (process : HANDLE) (e : Event) : Prop :=
  match e with
  | Call (CallGetModuleFileNameW _) => process = INVALID_HANDLE_VALUE
  | Call (CallGetModuleBaseNameW h _) => h = process /\ process <> INVALID_HANDLE_VALUE
  | Call CallGetLastError => True
  | Wcerr _ => True
  | _ => False
  end.

Lemma name_calls_name_event process size m :
  Forall (name_event process)
         (map (fun j => name_call process (doubled size j)) (seq 0 m)).
Proof.
  apply Forall_forall. intros e Hin. apply in_map_iff in Hin.
  destruct Hin as (j & <- & _). unfold name_call, name_event.
  destruct (process =? INVALID_HANDLE_VALUE) eqn:E.
  - apply Z.eqb_eq. exact E.
  - split; [reflexivity|apply Z.eqb_neq; exact E].
Qed.

(** X17: [processFilename] asks about the running image only when its
    target is [INVALID_HANDLE_VALUE] and about the process behind the handle
    only otherwise, never about another handle; beyond these queries it only
    reads the last error and writes to the error stream. *)
Theorem processFilename_queries_its_target :
  forall {OS} (api : Platform OS) process s,
    Forall (name_event process) (tr (processFilename api process s)).
Proof.
  intros OS api process s.
  destruct (processFilename_run api process s) as (n & _ & Hcases).
  destruct Hcases as [(_ & _ & Ht)|[(_ & _ & e & Ht)|(_ & _ & Ht)]]; rewrite Ht.
  - apply name_calls_name_event.
  - apply Forall_app. split; [apply name_calls_name_event|].
    repeat constructor.
  - apply Forall_app. split; [apply name_calls_name_event|].
    repeat constructor.
Qed.

(** ** Outcomes of the growing-buffer queries, from the answers *)

Section GrowingBuffer.

Context {OS : Type}.
Variable api : Platform OS.

(** The first query of [processFilename] whose buffer is not too small,
    among the first [tries]. *)
Lemma name_too_small_first process size s tries :
  exists n,
    (n <= tries)%nat
    /\ (forall j, (j < n)%nat -> name_too_small api process size j s)
    /\ (n = tries \/ ~ name_too_small api process size n s).
Proof.
  induction tries as [|tries (n & Hn & Hsmall & Hstop)].
  - exists 0%nat. split; [lia|]. split; [intros j Hj; lia|left; reflexivity].
  - destruct Hstop as [->|Hnot].
    + destruct (Z_le_dec (doubled size tries) (name_written api process size tries s))
        as [Hle|Hgt].
      * exists (S tries). split; [lia|]. split; [|left; reflexivity].
        intros j Hj. destruct (Nat.eq_dec j tries) as [->|Hne];
          [exact Hle|apply Hsmall; lia].
      * exists tries. split; [lia|]. split; [exact Hsmall|right; exact Hgt].
    + exists n. split; [lia|]. split; [exact Hsmall|right; exact Hnot].
Qed.

Lemma name_written_bounds process size n s :
  0 <= name_written api process size n s < 2 ^ 32.
Proof. unfold name_written, to_DWORD. apply Z.mod_pos_bound. reflexivity. Qed.

(** C3, amended: a run of either growing-buffer query goes through [n]
    attempts that fill their buffer, each on the initial capacity doubled
    once more, and then ends in one of three ways.  Either attempt [n], one
    of the ten, answers with fewer elements than its buffer holds: the query
    succeeds with exactly these elements, fewer than the final capacity, and
    reports nothing.  Or attempt [n], one of the ten, reports a hard
    failure: no further attempt is made, the error is read and reported at
    once, and the result is empty.  Or all ten attempts filled their buffer:
    the query reports its failure after exactly ten attempts, and the result
    is empty.  For [runningProcessesIds] the capacities are 300 entries
    doubled, for [processFilename] 260 characters doubled. *)
Theorem growing_buffer_outcomes :
  forall s,
    (let r := runningProcessesIds api s in
     exists n,
       (n <= 10)%nat
       /\ (forall j, (j < n)%nat -> enum_filled api 300 j s)
       /\ ( ((n < 10)%nat
             /\ fst (enum_answer api n s) = true
             /\ val r = snd (enum_answer api n s)
             /\ Z.of_nat (List.length (val r)) < doubled 300 n
             /\ tr r = map (enum_call 300) (seq 0 (S n))
             /\ capacities (tr r) = map (doubled 300) (seq 0 (S n))
             /\ error_output (tr r) = [])
            \/ ((n < 10)%nat
                /\ fst (enum_answer api n s) = false
                /\ val r = []
                /\ tr r = map (enum_call 300) (seq 0 (S n))
                          ++ [Call CallGetLastError;
                              enum_failure_line api
                                (GetLastError api (enum_state api (S n) s))]
                /\ capacities (tr r) = map (doubled 300) (seq 0 (S n)))
            \/ (n = 10%nat
                /\ val r = []
                /\ tr r = map (enum_call 300) (seq 0 10) ++ [too_many_line]
                /\ capacities (tr r) = map (doubled 300) (seq 0 10)) ))
    /\ (forall process,
          let r := processFilename api process s in
          exists n,
            (n <= 10)%nat
            /\ (forall j, (j < n)%nat -> name_too_small api process MAX_PATH j s)
            /\ ( ((n < 10)%nat
                  /\ 0 < name_written api process MAX_PATH n s < doubled MAX_PATH n
                  /\ (exists text,
                         text = firstn (Z.to_nat (name_written api process MAX_PATH n s))
                                  (stored 0%N (Z.to_nat (doubled MAX_PATH n + 1))
                                     (Z.to_nat (doubled MAX_PATH n))
                                     (name_stored api process MAX_PATH n s))
                         /\ Z.of_nat (List.length text)
                            = name_written api process MAX_PATH n s
                         /\ val r = path_filename api text)
                  /\ tr r = map (fun j => name_call process (doubled MAX_PATH j))
                                (seq 0 (S n))
                  /\ capacities (tr r) = map (doubled MAX_PATH) (seq 0 (S n))
                  /\ error_output (tr r) = [])
                 \/ ((n < 10)%nat
                     /\ name_written api process MAX_PATH n s = 0
                     /\ val r = []
                     /\ tr r = map (fun j => name_call process (doubled MAX_PATH j))
                                   (seq 0 (S n))
                               ++ [Call CallGetLastError;
                                   Wcerr (formatSystemMessage api
                                            (GetLastError api
                                               (snd (name_query api process
                                                       (doubled MAX_PATH n)
                                                       (name_state api process
                                                          MAX_PATH n s))))
                                            ++ endl);
                                   name_failure_line process]
                     /\ capacities (tr r) = map (doubled MAX_PATH) (seq 0 (S n)))
                 \/ (n = 10%nat
                     /\ val r = []
                     /\ tr r = map (fun j => name_call process (doubled MAX_PATH j))
                                   (seq 0 10)
                               ++ [name_failure_line process]
                     /\ capacities (tr r) = map (doubled MAX_PATH) (seq 0 10)) )).
Proof.
  intro s. split.
  - intro r.
    destruct (runningProcessesIds_run api s) as (n & Hn & Hfilled & Hcases).
    fold r in Hcases.
    exists n. split; [exact Hn|]. split; [exact Hfilled|].
    destruct Hcases as [(Hlt & Hans & Hlen & Hv & Ht)
                       |[(Hlt & Hans & Hv & Ht)|(Heq & Hv & Ht)]].
    + left. split; [exact Hlt|]. split; [exact Hans|]. split; [exact Hv|].
      split; [rewrite Hv; exact Hlen|]. split; [exact Ht|].
      rewrite Ht, capacities_enum_calls, error_output_enum_calls.
      split; reflexivity.
    + right. left. split; [exact Hlt|]. split; [exact Hans|]. split; [exact Hv|].
      split; [exact Ht|].
      rewrite Ht, capacities_app, capacities_enum_calls. apply app_nil_r.
    + right. right. split; [exact Heq|]. split; [exact Hv|]. subst n.
      split; [exact Ht|].
      rewrite Ht, capacities_app, capacities_enum_calls. apply app_nil_r.
  - intros process r.
    destruct (name_too_small_first process MAX_PATH s 10) as (n & Hn & Hsmall & Hstop).
    exists n. split; [exact Hn|]. split; [exact Hsmall|].
    destruct (Nat.eq_dec n 10) as [->|Hne].
    + (* all ten buffers were too small *)
      right. right. split; [reflexivity|].
      destruct (processFilename_skip api process 10 0 s ltac:(lia) Hsmall) as (Hv & Ht).
      fold r in Hv, Ht. cbn [processFilename_loop] in Hv, Ht.
      autorewrite with run in Hv, Ht. cbn [app] in Ht.
      split; [exact Hv|]. split; [exact Ht|].
      rewrite Ht, capacities_app, capacities_name_calls. apply app_nil_r.
    + assert (Hlt : (n < 10)%nat) by lia.
      assert (Hnot : ~ name_too_small api process MAX_PATH n s)
        by (destruct Hstop as [Heq|Hnot]; [contradiction|exact Hnot]).
      assert (Hfit : name_written api process MAX_PATH n s < doubled MAX_PATH n)
        by (unfold name_too_small in Hnot; lia).
      pose proof (name_written_bounds process MAX_PATH n s) as Hw.
      destruct (processFilename_skip api process n (9 - n + 1) s ltac:(lia) Hsmall)
        as (Hv & Ht).
      fold r in Hv, Ht.
      replace (9 - n + 1)%nat with (S (9 - n)) in Hv, Ht by lia.
      assert (Hcalls : forall extra,
                map (fun j => name_call process (doubled MAX_PATH j)) (seq 0 n)
                  ++ [name_call process (doubled MAX_PATH n)] ++ extra
                = map (fun j => name_call process (doubled MAX_PATH j)) (seq 0 (S n))
                  ++ extra).
      { intro extra. rewrite seq_S, map_app, <- app_assoc. reflexivity. }
      destruct (Z.eq_dec (name_written api process MAX_PATH n s) 0) as [Hzero|Hnz].
      * (* the query fails *)
        right. left. split; [exact Hlt|]. split; [exact Hzero|].
        destruct (processFilename_loop_fail api process (9 - n) (doubled MAX_PATH n)
                    (name_state api process MAX_PATH n s) Hzero) as (Hrv & Hrt).
        rewrite Hrv in Hv, Ht. rewrite Hrt in Ht.
        split; [exact Hv|].
        assert (Htr : tr r
                      = map (fun j => name_call process (doubled MAX_PATH j))
                            (seq 0 (S n))
                        ++ [Call CallGetLastError;
                            Wcerr (formatSystemMessage api
                                     (GetLastError api
                                        (snd (name_query api process
                                                (doubled MAX_PATH n)
                                                (name_state api process MAX_PATH n s))))
                                     ++ endl);
                            name_failure_line process]).
        { rewrite Ht. cbn [app]. rewrite <- (Hcalls _). reflexivity. }
        split; [exact Htr|].
        rewrite Htr, capacities_app, capacities_name_calls. apply app_nil_r.
      * (* the name fits *)
        left. split; [exact Hlt|]. split; [lia|].
        pose proof (doubled_below_ten MAX_PATH n ltac:(reflexivity) Hlt) as Hbound.
        assert (Hcap : doubled MAX_PATH n + 1 < 2 ^ 32)
          by (unfold MAX_PATH in *; word_bounds; lia).
        assert (Hpos : 0 < to_DWORD (fst (fst (name_query api process
                                                 (doubled MAX_PATH n)
                                                 (name_state api process MAX_PATH n s))))
                       < doubled MAX_PATH n)
          by (unfold name_written in Hfit, Hnz, Hw; lia).
        destruct (processFilename_loop_fit api process (9 - n) (doubled MAX_PATH n)
                    (name_state api process MAX_PATH n s) Hpos Hcap) as (Hrv & Hrt).
        rewrite Hrv in Hv, Ht. rewrite Hrt in Ht.
        assert (Htr : tr r = map (fun j => name_call process (doubled MAX_PATH j))
                                 (seq 0 (S n))).
        { rewrite Ht, app_nil_r, seq_S, map_app. reflexivity. }
        split.
        { eexists. split; [reflexivity|]. split; [|exact Hv].
          unfold name_written, name_stored.
          rewrite length_firstn, stored_length by lia.
          unfold name_written in Hfit, Hw. lia. }
        split; [exact Htr|].
        rewrite Htr, capacities_name_calls, error_output_name_calls.
        split; reflexivity.
Qed.

End GrowingBuffer.
